(** * SAMRAI tree load balancer: TransitSet, load model and box breaking

    A shallow embedding of the inline code of
    [source/SAMRAI/mesh/TreeLoadBalancer.h] (BoxInTransit,
    BoxInTransitMoreLoad, TransitSet, SubtreeData, computeLoad) and of the
    box-breaking contract of [source/SAMRAI/mesh/BalanceBoxBreaker.h].

    Conventions.
    - [LoadType] is [double] in the source.  Loads are modelled by the
      rationals they denote, with exact arithmetic; equality of loads is
      [Qeq] ([==]).  The loads the balancer assigns are cell counts
      ([computeLoad]), whole numbers, whose sums and differences [double]
      holds exactly.  Statements about sums of loads are therefore made
      for whole-number loads only; statements about arbitrary loads are
      kept to what rounding does not change (one difference, its sign,
      the order of two values).
    - [int] and [size_t] quantities are unbounded ([Z], [nat]).
    - [hier::Box], [hier::BoxId] and [std::set] are consumed interfaces;
      their models are marked as such below.
    - [std::set] asks of its comparator that it be a strict weak ordering
      on the keys in use.  [BoxInTransitMoreLoad] is one on the records
      whose load is the cell count of their box, the records the balancer
      builds, and not on all records.  The set operations are modelled,
      and every statement about them is made, on sets of such records. *)

From Stdlib Require Import ZArith QArith Qabs List Bool Lia Lqa Sorted Permutation.
Import ListNotations.

Open Scope Z_scope.

(* ================================================================== *)
(** ** The consumed box interface *)
(* ================================================================== *)

Module Hier.

(** Modelled from the spec: [hier::BoxId] is declared outside these
    sources.  The spec describes "a global box id composed of owner rank
    and local id"; ids are compared by owner rank first, then local id. *)
Record BoxId : Type := mkBoxId {
  owner_rank : Z;
  local_id : Z
}.

Definition BoxId_ltb (a b : BoxId) : bool :=
  (owner_rank a <? owner_rank b)
  || ((owner_rank a =? owner_rank b) && (local_id a <? local_id b)).

Definition BoxId_lt (a b : BoxId) : Prop := BoxId_ltb a b = true.

(** Modelled from the spec: [hier::Box] is declared outside these sources.
    "An axis-aligned integer rectangle in d-dimensional index space,
    carrying: lower/upper corners, a block id, a global box id".  The
    d-th entry of [axes] holds [lower()(d)] and [upper()(d)], both
    inclusive. *)
Record Box : Type := mkBox {
  axes : list (Z * Z);
  block_id : Z;
  box_id : BoxId
}.

Definition getBoxId (b : Box) : BoxId := box_id b.
Definition getDim (b : Box) : nat := length (axes b).
Definition lower (b : Box) : list Z := map fst (axes b).
Definition upper (b : Box) : list Z := map snd (axes b).

(** Modelled from the spec: [Box::empty()], of the consumed box
    interface: some axis has its upper bound below its lower bound. *)
Definition empty (b : Box) : bool :=
  existsb (fun lh => snd lh <? fst lh) (axes b).

(** Modelled from the spec: the extents [upper - lower + 1] of the axes
    multiplied. *)
Definition volume (ax : list (Z * Z)) : Z :=
  fold_right (fun lh acc => (snd lh - fst lh + 1) * acc) 1 ax.

(** Modelled from the spec: [Box::size()], the "size/cell-count" of the
    consumed box interface: the product of the extents, zero for an
    empty box. *)
Definition size (b : Box) : Z :=
  if empty b then 0 else volume (axes b).

(** Modelled from the spec: [Box::operator*], the "intersection" of the
    consumed box interface, for boxes of one block and one dimension: the
    larger lower bound and the smaller upper bound on every axis. *)
Definition intersect_axes (a b : list (Z * Z)) : list (Z * Z) :=
  map (fun p => (Z.max (fst (fst p)) (fst (snd p)),
                 Z.min (snd (fst p)) (snd (snd p))))
      (combine a b).

Definition intersect (a b : Box) : Box :=
  mkBox (intersect_axes (axes a) (axes b)) (block_id a) (box_id a).

(** A cell is an index vector, one coordinate per axis; [inside] tells
    whether it lies within the bounds on every axis. *)
Definition Index := list Z.

Fixpoint inside (ax : list (Z * Z)) (p : Index) : bool :=
  match ax, p with
  | [], [] => true
  | (lo, hi) :: ax', x :: p' => (lo <=? x) && (x <=? hi) && inside ax' p'
  | _, _ => false
  end.

Definition contains (b : Box) (p : Index) : bool := inside (axes b) p.

(** All cells of a box, in lexicographic order: what a cell count
    counts. *)
Fixpoint range (lo : Z) (n : nat) : list Z :=
  match n with
  | O => []
  | S n' => lo :: range (lo + 1) n'
  end.

Fixpoint cells_of (ax : list (Z * Z)) : list Index :=
  match ax with
  | [] => [[]]
  | (lo, hi) :: ax' =>
      flat_map (fun x => map (cons x) (cells_of ax'))
               (range lo (Z.to_nat (hi - lo + 1)))
  end.

Definition cells (b : Box) : list Index := cells_of (axes b).

End Hier.

Import Hier.

(* ================================================================== *)
(** ** BoxInTransit and its ordering *)
(* ================================================================== *)

(** [typedef double LoadType]: the rational a double denotes. *)
Abbreviation LoadType := Q (only parsing).

(** [struct BoxInTransit]. *)
Record BoxInTransit : Type := mkBoxInTransit {
  d_box : Box;
  d_orig_box : Box;
  d_boxload : LoadType
}.

Definition getBox (r : BoxInTransit) : Box := d_box r.
Definition getOwnerRank (r : BoxInTransit) : Z := owner_rank (box_id (d_box r)).
Definition getLocalId (r : BoxInTransit) : Z := local_id (box_id (d_box r)).

(** [a > b] on loads. *)
Definition load_gtb (a b : LoadType) : bool := negb (Qle_bool a b).

(** [BoxInTransitMoreLoad::operator()]. *)
Definition BoxInTransitMoreLoad (a b : BoxInTransit) : bool :=
  if negb (size (getBox a) =? size (getBox b))
  then load_gtb (d_boxload a) (d_boxload b)
  else BoxId_ltb (getBoxId (d_box a)) (getBoxId (d_box b)).

(** Two records are equivalent keys of the set when neither precedes the
    other. *)
Definition key_equiv (a b : BoxInTransit) : bool :=
  negb (BoxInTransitMoreLoad a b) && negb (BoxInTransitMoreLoad b a).

(** The uniform load model of [computeLoad]: the load of a record is the
    cell count of its box. *)
Definition uniform_load (r : BoxInTransit) : Prop :=
  (d_boxload r == inject_Z (size (d_box r)))%Q.

(** The ordering the documentation describes: more load first, box id
    ascending among equal loads. *)
Definition more_load_then_id (a b : BoxInTransit) : Prop :=
  (d_boxload b < d_boxload a)%Q
  \/ ((d_boxload a == d_boxload b)%Q
      /\ BoxId_lt (getBoxId (d_box a)) (getBoxId (d_box b))).

(* ================================================================== *)
(** ** The ordered set underneath TransitSet *)
(* ================================================================== *)

(** [std::set<BoxInTransit, BoxInTransitMoreLoad>] is the C++ library's.
    It is modelled by the list of its elements in iteration order; an
    iterator is a position in the list.  Every operation walks the list
    front to back with the comparator: skip the elements that precede the
    key, then test the first one that does not for equivalence.

    Where the comparator is a strict weak ordering on the stored elements
    and the key, the elements before the key form a prefix of the list,
    so this walk and the library's tree search reach the same element, at
    most one stored element is equivalent to a key, and inserting a range
    element by element is what the library's range insert does.  That is
    the case on [ordered_set]s and keys with [uniform_load] (below).
    Elsewhere the library's answer depends on the shape of its tree, and
    the walks are not meant to describe it. *)
Module StdSet.

Abbreviation t := (list BoxInTransit) (only parsing).

(** [lower_bound(k)]: position of the first element not preceding [k]. *)
Fixpoint lower_bound (l : t) (k : BoxInTransit) : nat :=
  match l with
  | [] => O
  | e :: l' =>
      if BoxInTransitMoreLoad e k then S (lower_bound l' k) else O
  end.

(** [upper_bound(k)]: position of the first element that [k] precedes. *)
Fixpoint upper_bound (l : t) (k : BoxInTransit) : nat :=
  match l with
  | [] => O
  | e :: l' =>
      if BoxInTransitMoreLoad k e then O else S (upper_bound l' k)
  end.

(** [find(k)]: the stored element equivalent to [k], if there is one. *)
Fixpoint find (l : t) (k : BoxInTransit) : option BoxInTransit :=
  match l with
  | [] => None
  | e :: l' =>
      if BoxInTransitMoreLoad e k then find l' k
      else if BoxInTransitMoreLoad k e then None
      else Some e
  end.

(** [insert(x)]: the new contents and whether [x] went in. *)
Fixpoint insert (l : t) (x : BoxInTransit) : t * bool :=
  match l with
  | [] => ([x], true)
  | e :: l' =>
      if BoxInTransitMoreLoad e x
      then let r := insert l' x in (e :: fst r, snd r)
      else if BoxInTransitMoreLoad x e then (x :: l, true)
      else (l, false)
  end.

(** [insert(first, last)]: one insertion per element of the range. *)
Definition insert_range (l : t) (xs : list BoxInTransit) : t :=
  fold_left (fun acc x => fst (insert acc x)) xs l.

(** [erase(k)]: the new contents and the number of elements erased. *)
Fixpoint erase (l : t) (k : BoxInTransit) : t * nat :=
  match l with
  | [] => ([], O)
  | e :: l' =>
      if BoxInTransitMoreLoad e k
      then let r := erase l' k in (e :: fst r, snd r)
      else if BoxInTransitMoreLoad k e then (l, O)
      else (l', 1%nat)
  end.

(** [erase(pos)]: drop the element at a position. *)
Fixpoint erase_at (l : t) (pos : nat) : t :=
  match l, pos with
  | [], _ => []
  | _ :: l', O => l'
  | e :: l', S p => e :: erase_at l' p
  end.

End StdSet.

(* ================================================================== *)
(** ** TransitSet *)
(* ================================================================== *)

(** [class TransitSet]: the set and the cached sum of its loads. *)
Record TransitSet : Type := mkTransitSet {
  d_set : StdSet.t;
  d_sumload : LoadType
}.

(** What a call yields: a value, or the fatal [TBOX_ERROR]. *)
Inductive outcome (A : Type) : Type :=
| Done (a : A)
| TboxError.
Arguments Done {A} a.
Arguments TboxError {A}.

Module TS.

(** [TransitSet()]. *)
Definition new : TransitSet := mkTransitSet [] 0%Q.

(** [TransitSet(first, last)]: the sum is taken over what the set kept. *)
Definition of_range (xs : list BoxInTransit) : TransitSet :=
  let s := StdSet.insert_range [] xs in
  mkTransitSet s (fold_left (fun acc bi => (acc + d_boxload bi)%Q) s 0%Q).

Definition size (s : TransitSet) : nat := length (d_set s).
Definition empty (s : TransitSet) : bool :=
  match d_set s with [] => true | _ => false end.
Definition getSumLoad (s : TransitSet) : LoadType := d_sumload s.
Definition lower_bound (s : TransitSet) (k : BoxInTransit) : nat :=
  StdSet.lower_bound (d_set s) k.
Definition upper_bound (s : TransitSet) (k : BoxInTransit) : nat :=
  StdSet.upper_bound (d_set s) k.

(** [insert(const value_type&)]: the pair (iterator, inserted) and the
    set afterwards. *)
Definition insert (s : TransitSet) (x : BoxInTransit)
  : (nat * bool) * TransitSet :=
  let rval := StdSet.insert (d_set s) x in
  ((StdSet.lower_bound (d_set s) x, snd rval),
   mkTransitSet (fst rval)
     (if snd rval then (d_sumload s + d_boxload x)%Q else d_sumload s)).

(** [insert(first, last)]. *)
Definition insert_range (s : TransitSet) (xs : list BoxInTransit)
  : outcome TransitSet :=
  let tmp_size := size s in
  let set' := StdSet.insert_range (d_set s) xs in
  let acc :=
    fold_left (fun st i => ((fst st + d_boxload i)%Q, S (snd st)))
              xs (d_sumload s, tmp_size) in
  if negb (Nat.eqb (snd acc) (length set'))
  then TboxError
  else Done (mkTransitSet set' (fst acc)).

(** [erase(iterator)]: the iterator must point at an element. *)
Definition erase_pos (s : TransitSet) (pos : nat) : option TransitSet :=
  match nth_error (d_set s) pos with
  | Some e =>
      Some (mkTransitSet (StdSet.erase_at (d_set s) pos)
                         (d_sumload s - d_boxload e)%Q)
  | None => None
  end.

(** [erase(const key_type&)]: the number erased and the set afterwards. *)
Definition erase (s : TransitSet) (k : BoxInTransit) : nat * TransitSet :=
  let r := StdSet.erase (d_set s) k in
  let num_erased := snd r in
  (num_erased,
   mkTransitSet (fst r)
     (if Nat.eqb num_erased O then d_sumload s
      else (d_sumload s - d_boxload k)%Q)).

(** [clear()]. *)
Definition clear (s : TransitSet) : TransitSet := mkTransitSet [] 0%Q.

(** [swap(other)]: this set and the other one afterwards. *)
Definition swap (s other : TransitSet) : TransitSet * TransitSet :=
  let tl := d_sumload s in
  (mkTransitSet (d_set other) (d_sumload other),
   mkTransitSet (d_set s) tl).

End TS.

(** [computeLoad(const TransitSet&)]: the naive sum over the elements. *)
Definition computeLoad_set (s : TransitSet) : LoadType :=
  fold_left (fun load bi => (load + d_boxload bi)%Q) (d_set s) 0%Q.

(** The cached sum agrees with the naive one. *)
Definition sum_ok (s : TransitSet) : Prop :=
  (TS.getSumLoad s == computeLoad_set s)%Q.

(** The naive sum, by structural recursion; [computeLoad_set] is its loop. *)
Fixpoint total_load (l : list BoxInTransit) : LoadType :=
  match l with
  | [] => 0%Q
  | bi :: l' => (d_boxload bi + total_load l')%Q
  end.

(** The representation invariant of the set under the uniform load model:
    the elements are in strictly increasing comparator order and each
    carries the cell count of its box as load. *)
Definition ordered_set (l : list BoxInTransit) : Prop :=
  StronglySorted (fun a b => BoxInTransitMoreLoad a b = true) l
  /\ Forall uniform_load l.

(** A range insert meets a key that is already present when its turn
    comes: present in the set before the call, or put there by an earlier
    element of the range. *)
Fixpoint range_collides (l : list BoxInTransit) (xs : list BoxInTransit) : bool :=
  match xs with
  | [] => false
  | x :: r =>
      match StdSet.find l x with
      | Some _ => true
      | None => range_collides (fst (StdSet.insert l x)) r
      end
  end.

(** Two elements of a range are equivalent keys. *)
Fixpoint dup_keys (xs : list BoxInTransit) : Prop :=
  match xs with
  | [] => False
  | x :: r => (exists x', In x' r /\ key_equiv x x' = true) \/ dup_keys r
  end.

(** An element of a range is equivalent to a stored element. *)
Definition clash_with (l xs : list BoxInTransit) : Prop :=
  exists x y, In x xs /\ In y l /\ key_equiv x y = true.

(** The TransitSets a program can build: starting from [TransitSet()], by
    single and range insertion, erasure by iterator and by key, [clear]
    and [swap] with another set built the same way.  [rec_ok] is the
    condition on every record handed to a call, [key_ok s k] the
    condition each call [s.erase(k)] is held to. *)
Inductive reachable (rec_ok : BoxInTransit -> Prop)
    (key_ok : TransitSet -> BoxInTransit -> Prop) : TransitSet -> Prop :=
| reach_new :
    reachable rec_ok key_ok TS.new
| reach_insert s x :
    reachable rec_ok key_ok s ->
    rec_ok x ->
    reachable rec_ok key_ok (snd (TS.insert s x))
| reach_insert_range s xs s' :
    reachable rec_ok key_ok s ->
    Forall rec_ok xs ->
    TS.insert_range s xs = Done s' ->
    reachable rec_ok key_ok s'
| reach_erase_pos s pos s' :
    reachable rec_ok key_ok s ->
    TS.erase_pos s pos = Some s' ->
    reachable rec_ok key_ok s'
| reach_erase_key s k :
    reachable rec_ok key_ok s ->
    rec_ok k ->
    key_ok s k ->
    reachable rec_ok key_ok (snd (TS.erase s k))
| reach_clear s :
    reachable rec_ok key_ok s ->
    reachable rec_ok key_ok (TS.clear s)
| reach_swap_this s other :
    reachable rec_ok key_ok s -> reachable rec_ok key_ok other ->
    reachable rec_ok key_ok (fst (TS.swap s other))
| reach_swap_other s other :
    reachable rec_ok key_ok s -> reachable rec_ok key_ok other ->
    reachable rec_ok key_ok (snd (TS.swap s other)).

(** No condition on the records handed to the operations. *)
Definition any_record (r : BoxInTransit) : Prop := True.

(** No condition on the keys handed to [erase]. *)
Definition any_key (s : TransitSet) (k : BoxInTransit) : Prop := True.

(** The key handed to [erase] carries the load of the element it erases. *)
Definition key_load_matches (s : TransitSet) (k : BoxInTransit) : Prop :=
  forall y, StdSet.find (d_set s) k = Some y ->
            (d_boxload k == d_boxload y)%Q.

(** The set consults a key through the comparator alone, against stored
    elements.  [same_order_as l k k0]: against every element of [l] the
    key [k] compares the way [k0] does, so a search for [k] takes the
    steps of a search for [k0]. *)
Definition same_order_as (l : list BoxInTransit) (k k0 : BoxInTransit) : Prop :=
  forall e, In e l ->
    BoxInTransitMoreLoad e k = BoxInTransitMoreLoad e k0
    /\ BoxInTransitMoreLoad k e = BoxInTransitMoreLoad k0 e.

(** The load is a whole number, as every cell count is. *)
Definition whole_load (r : BoxInTransit) : Prop :=
  exists z : Z, (d_boxload r == inject_Z z)%Q.

(* ================================================================== *)
(** ** SubtreeData *)
(* ================================================================== *)

(** [struct SubtreeData]. *)
Record SubtreeData : Type := mkSubtreeData {
  d_subtree_rank : Z;
  d_num_procs : Z;
  d_subtree_load_current : LoadType;
  d_subtree_load_ideal : LoadType;
  d_subtree_load_upperlimit : LoadType;
  d_eff_num_procs : Z;
  d_eff_load_current : LoadType;
  d_eff_load_ideal : LoadType;
  d_eff_load_upperlimit : LoadType;
  d_work_traded : TransitSet;
  d_wants_work_from_parent : bool
}.

Definition surplus (s : SubtreeData) : LoadType :=
  (d_subtree_load_current s - d_subtree_load_ideal s)%Q.
Definition deficit (s : SubtreeData) : LoadType :=
  (d_subtree_load_ideal s - d_subtree_load_current s)%Q.
Definition effSurplus (s : SubtreeData) : LoadType :=
  (d_eff_load_current s - d_eff_load_ideal s)%Q.
Definition effDeficit (s : SubtreeData) : LoadType :=
  (d_eff_load_ideal s - d_eff_load_current s)%Q.
Definition excess (s : SubtreeData) : LoadType :=
  (d_subtree_load_current s - d_subtree_load_upperlimit s)%Q.
Definition margin (s : SubtreeData) : LoadType :=
  (d_subtree_load_upperlimit s - d_subtree_load_current s)%Q.
Definition effExcess (s : SubtreeData) : LoadType :=
  (d_eff_load_current s - d_eff_load_upperlimit s)%Q.
Definition effMargin (s : SubtreeData) : LoadType :=
  (d_eff_load_upperlimit s - d_eff_load_current s)%Q.

(* ================================================================== *)
(** ** The load model *)
(* ================================================================== *)

(** [computeLoad(const hier::Box&)]. *)
Definition computeLoad (box : Box) : LoadType := inject_Z (size box).

(** [computeLoad(const hier::Box&, const hier::Box&)]. *)
Definition computeLoad_in (box restriction : Box) : LoadType :=
  inject_Z (size (intersect box restriction)).

(** The number of cells of a box, by counting them. *)
Definition cell_count (b : Box) : Z := Z.of_nat (length (cells b)).

(** The number of cells of [b] that lie in [r] too. *)
Definition common_cell_count (b r : Box) : Z :=
  Z.of_nat (length (filter (contains r) (cells b))).

(* ================================================================== *)
(** ** Box breaking *)
(* ================================================================== *)

(** [bursty >= solid] for a solid that has cells: the boxes have the
    same dimension and on every axis the extent of [solid] is not empty
    and lies in that of [bursty]. *)
Fixpoint axes_within (outer inner : list (Z * Z)) : bool :=
  match outer, inner with
  | [], [] => true
  | (blo, bhi) :: outer', (slo, shi) :: inner' =>
      (blo <=? slo) && (slo <=? shi) && (shi <=? bhi)
      && axes_within outer' inner'
  | _, _ => false
  end.

Definition contains_box (bursty solid : Box) : bool :=
  axes_within (axes bursty) (axes solid).

(** How many boxes of a list contain an index. *)
Definition covering (boxes : list Box) (p : Index) : nat :=
  length (filter (fun b => contains b p) boxes).

(** How many extents of a list contain an index. *)
Definition hits (pieces : list (list (Z * Z))) (p : Index) : nat :=
  length (filter (fun ax => inside ax p) pieces).

(** Two boxes share no cell. *)
Definition disjoint (a b : Box) : Prop :=
  forall p, ~ (contains a p = true /\ contains b p = true).

(** Modelled from the spec: [BalanceBoxBreaker::burstBox] (and its twin
    [TreeLoadBalancer::burstBox]) is declared in the headers; its body is
    in a source file that is not here.  The spec: "given bursty >= solid,
    produce the minimal rectilinear cover of bursty \ solid as up to 2*d
    axis-aligned boxes by slicing along each face of solid in a fixed
    canonical order".  The faces are taken axis by axis, the lower face
    before the upper one; a slice removes from what is left of [bursty]
    the slab beyond that face, so the axes already sliced ([done]) have
    the extent of [solid]. *)
Fixpoint burst_axes (done cutme solid : list (Z * Z)) : list (list (Z * Z)) :=
  match cutme, solid with
  | (blo, bhi) :: cutme', (slo, shi) :: solid' =>
      (if blo <? slo then [done ++ (blo, slo - 1) :: cutme'] else [])
      ++ (if shi <? bhi then [done ++ (shi + 1, bhi) :: cutme'] else [])
      ++ burst_axes (done ++ [(slo, shi)]) cutme' solid'
  | _, _ => []
  end.

(** Modelled from the spec: the pieces of [burstBox] are boxes of the
    block of [bursty]; the header does not say which ids they get, they
    keep the id of [bursty] here. *)
Definition burstBox (bursty solid : Box) : list Box :=
  map (fun ax => mkBox ax (block_id bursty) (box_id bursty))
      (burst_axes [] (axes bursty) (axes solid)).

(** [computeBalancePenalty(double imbalance)]. *)
Definition computeBalancePenalty (imbalance : LoadType) : Q := Qabs imbalance.

(** Modelled from the spec: [PartitioningParams] is declared in a header
    that is not here.  It stands for what steps 1 to 3 of the breaking
    algorithm take from the configuration and from helpers whose bodies
    are absent: the three penalty weights, the bad cut planes of a box
    ("from the min-size, cut-factor, bad-interval, and block-domain
    constraints"; entry [i] of axis [d] tells whether the plane [i] cells
    above the lower bound is bad), the surface and slenderness penalties
    of a break, and the side lengths of the corner piece "whose volume
    approximates ideal". *)
Record PartitioningParams : Type := mkPartitioningParams {
  balance_penalty_wt : Q;
  surface_penalty_wt : Q;
  slender_penalty_wt : Q;
  findBadCuts : Box -> list (list bool);
  computeSurfacePenalty : list Box -> list Box -> Q;
  computeSlenderPenalty : list Box -> list Box -> Q;
  cubic_sides : Box -> LoadType -> list Z
}.

(** [combinedBreakingPenalty]. *)
Definition combinedBreakingPenalty (pp : PartitioningParams)
    (balance_penalty surface_penalty slender_penalty : Q) : Q :=
  (balance_penalty_wt pp * balance_penalty * balance_penalty
   + surface_penalty_wt pp * surface_penalty * surface_penalty
   + slender_penalty_wt pp * slender_penalty * slender_penalty)%Q.

(** Modelled from the spec: a candidate cut of step 2, the boxes broken
    off and what is left over. *)
Record Break : Type := mkBreak {
  cand_breakoff : list Box;
  cand_leftover : list Box
}.

(** What [breakOffLoad] hands back: the return value and the three
    output arguments. *)
Record BreakResult : Type := mkBreakResult {
  success : bool;
  breakoff : list Box;
  leftover : list Box;
  brk_load : LoadType
}.

Module Breaker.

(** Modelled from the spec: the load of a list of boxes, box by box. *)
Definition load_of (boxes : list Box) : LoadType :=
  fold_left (fun load b => (load + computeLoad b)%Q) boxes 0%Q.

(** Modelled from the spec: [brk_load], "the load broken off". *)
Definition break_load (c : Break) : LoadType := load_of (cand_breakoff c).

(** Modelled from the spec: step 3, the composite penalty of a
    candidate, with [balance = |brk_load - ideal|]. *)
Definition penalty (pp : PartitioningParams) (ideal_load : LoadType)
    (c : Break) : Q :=
  combinedBreakingPenalty pp
    (computeBalancePenalty (break_load c - ideal_load)%Q)
    (computeSurfacePenalty pp (cand_breakoff c) (cand_leftover c))
    (computeSlenderPenalty pp (cand_breakoff c) (cand_leftover c)).

(** Modelled from the spec: whether the plane [offset] cells above the
    lower bound of axis [d] is a bad cut. *)
Definition bad_cut (bad_cuts : list (list bool)) (d : nat) (offset : Z) : bool :=
  nth (Z.to_nat offset) (nth d bad_cuts []) false.

(** Modelled from the spec: "prefer cuts nearer the box's geometric
    center".  Twice the distance of the plane below cell [c] from the
    centre of the extent [lo..hi]. *)
Definition centre_distance (lo hi c : Z) : Z := Z.abs (2 * c - (lo + hi + 1)).

(** Stable insertion sort of planes by a key. *)
Fixpoint insert_by (key : Z -> Z) (c : Z) (l : list Z) : list Z :=
  match l with
  | [] => [c]
  | c' :: l' => if key c <=? key c' then c :: l else c' :: insert_by key c l'
  end.

Definition sort_by (key : Z -> Z) (l : list Z) : list Z :=
  fold_right (insert_by key) [] l.

(** Modelled from the spec: the planes that cut the extent [lo..hi] in
    two, those nearer its centre first.  Plane [c] separates the cells
    below [c] from the cells from [c] on. *)
Definition cut_planes (lo hi : Z) : list Z :=
  sort_by (centre_distance lo hi) (range (lo + 1) (Z.to_nat (hi - lo))).

(** Modelled from the spec: "produce a two-piece split; pick the slab
    with load nearer ideal".  The split of [box] by plane [c] of the axis
    that follows [pre]. *)
Definition planar_break (box : Box) (ideal_load : LoadType)
    (pre post : list (Z * Z)) (lo hi c : Z) : Break :=
  let lower_slab := mkBox (pre ++ (lo, c - 1) :: post) (block_id box) (box_id box) in
  let upper_slab := mkBox (pre ++ (c, hi) :: post) (block_id box) (box_id box) in
  if Qle_bool (Qabs (computeLoad lower_slab - ideal_load))
              (Qabs (computeLoad upper_slab - ideal_load))
  then mkBreak [lower_slab] [upper_slab]
  else mkBreak [upper_slab] [lower_slab].

(** Modelled from the spec: "for each axis, for each permissible cut
    plane, produce a two-piece split": axes in ascending order, the
    planes of an axis from the centre outwards. *)
Fixpoint planar_breaks (box : Box) (ideal_load : LoadType)
    (bad_cuts : list (list bool)) (d : nat) (pre ax : list (Z * Z))
  : list Break :=
  match ax with
  | [] => []
  | (lo, hi) :: post =>
      map (planar_break box ideal_load pre post lo hi)
          (filter (fun c => negb (bad_cut bad_cuts d (c - lo)))
                  (cut_planes lo hi))
      ++ planar_breaks box ideal_load bad_cuts (S d) (pre ++ [(lo, hi)]) post
  end.

(** Modelled from the spec: "for each corner of the box".  A corner
    names, per axis, the lower end ([false]) or the upper end ([true]). *)
Fixpoint corners (d : nat) : list (list bool) :=
  match d with
  | O => [[]]
  | S d' => flat_map (fun c => [false :: c; true :: c]) (corners d')
  end.

(** Modelled from the spec: "an axis-aligned sub-box anchored at that
    corner", of the given side lengths. *)
Fixpoint corner_axes (ax : list (Z * Z)) (sides : list Z) (corner : list bool)
  : list (Z * Z) :=
  match ax, sides, corner with
  | (lo, hi) :: ax', n :: sides', up :: corner' =>
      (if up : bool then (hi - n + 1, hi) else (lo, lo + n - 1))
      :: corner_axes ax' sides' corner'
  | _, _, _ => []
  end.

(** Modelled from the spec: the faces of the corner piece that cut the
    box lie on permissible planes ("a cut plane is bad if ..."). *)
Fixpoint corner_cuts_ok (bad_cuts : list (list bool)) (d : nat)
    (ax : list (Z * Z)) (sides : list Z) (corner : list bool) : bool :=
  match ax, sides, corner with
  | (lo, hi) :: ax', n :: sides', up :: corner' =>
      ((n =? hi - lo + 1)
       || negb (bad_cut bad_cuts d (if up : bool then hi - n + 1 - lo else n)))
      && corner_cuts_ok bad_cuts (S d) ax' sides' corner'
  | _, _, _ => true
  end.

(** Modelled from the spec: "for each corner of the box, carve off an
    axis-aligned sub-box anchored at that corner ...; this yields a
    single corner piece (breakoff) and ... leftover pieces obtained by
    bursting".  A corner piece that does not fit in the box or cuts along
    a bad plane is no candidate. *)
Definition cubic_breaks (pp : PartitioningParams) (box : Box)
    (ideal_load : LoadType) (bad_cuts : list (list bool)) : list Break :=
  let sides := cubic_sides pp box ideal_load in
  flat_map
    (fun corner =>
       let piece := mkBox (corner_axes (axes box) sides corner)
                          (block_id box) (box_id box) in
       if contains_box box piece
          && corner_cuts_ok bad_cuts 0 (axes box) sides corner
       then [mkBreak [piece] (burstBox box piece)]
       else [])
    (corners (getDim box)).

(** Modelled from the spec: [brk_load] lies in [low, high]. *)
Definition in_band (low_load high_load : LoadType) (c : Break) : bool :=
  Qle_bool low_load (break_load c) && Qle_bool (break_load c) high_load.

(** Modelled from the spec: "accept the lowest-penalty candidate"; of
    several the first, so that the order of the candidates breaks ties. *)
Fixpoint lowest_penalty (f : Break -> Q) (l : list Break) : option Break :=
  match l with
  | [] => None
  | c :: l' =>
      match lowest_penalty f l' with
      | None => Some c
      | Some c' => if Qle_bool (f c) (f c') then Some c else Some c'
      end
  end.

(** Modelled from the spec: "accept the lowest-penalty candidate whose
    brk_load in [low,high]". *)
Definition best_in_band (pp : PartitioningParams)
    (ideal_load low_load high_load : LoadType) (l : list Break) : option Break :=
  lowest_penalty (penalty pp ideal_load) (filter (in_band low_load high_load) l).

(** Modelled from the spec: the outputs for an accepted candidate, and
    for "success=false". *)
Definition result_of (c : Break) : BreakResult :=
  mkBreakResult true (cand_breakoff c) (cand_leftover c) (break_load c).

Definition no_break : BreakResult := mkBreakResult false [] [] 0%Q.

End Breaker.

(** Modelled from the spec: [BalanceBoxBreaker::breakOffLoad_planar] is
    declared in the header; its body is not here.  Spec, steps 2 to 5:
    the planar candidates, ranked by the composite penalty, restricted
    to those with [low <= brk_load <= high]; ties go to the lower axis
    and to the cut nearer the centre. *)
Definition breakOffLoad_planar (pp : PartitioningParams) (box : Box)
    (ideal_load low_load high_load : LoadType)
    (bad_cuts : list (list bool)) : option Break :=
  Breaker.best_in_band pp ideal_load low_load high_load
    (Breaker.planar_breaks box ideal_load bad_cuts 0 [] (axes box)).

(** Modelled from the spec: [BalanceBoxBreaker::breakOffLoad_cubic] is
    declared in the header; its body is not here.  Spec, steps 2 to 4 for
    the corner-chop candidates. *)
Definition breakOffLoad_cubic (pp : PartitioningParams) (box : Box)
    (ideal_load low_load high_load : LoadType)
    (bad_cuts : list (list bool)) : option Break :=
  Breaker.best_in_band pp ideal_load low_load high_load
    (Breaker.cubic_breaks pp box ideal_load bad_cuts).

(** Modelled from the spec: [BalanceBoxBreaker::breakOffLoad] (and its
    twin in [TreeLoadBalancer]) is declared in the headers; its body is
    not here.  Spec: "break_off(box, ideal, low, high) -> (breakoff[],
    leftover[], brk_load, success)": step 1 computes the bad cut planes,
    steps 2 to 4 take the lowest-penalty candidate in the band among the
    planar and the cubic ones, "prefer planar over cubic" on a tie, and
    "if none qualifies, return success=false". *)
Definition breakOffLoad (pp : PartitioningParams) (box : Box)
    (ideal_load low_load high_load : LoadType) : BreakResult :=
  let bad_cuts := findBadCuts pp box in
  match breakOffLoad_planar pp box ideal_load low_load high_load bad_cuts,
        breakOffLoad_cubic pp box ideal_load low_load high_load bad_cuts with
  | Some p, Some c =>
      if Qle_bool (Breaker.penalty pp ideal_load p)
                  (Breaker.penalty pp ideal_load c)
      then Breaker.result_of p else Breaker.result_of c
  | Some p, None => Breaker.result_of p
  | None, Some c => Breaker.result_of c
  | None, None => Breaker.no_break
  end.

(* ================================================================== *)
(** ** Further definitions for the properties of the inline code *)
(* ================================================================== *)

(** How many stored records precede a key, and how many the key does not
    precede. *)
Definition count_before (l : list BoxInTransit) (k : BoxInTransit) : nat :=
  length (filter (fun e => BoxInTransitMoreLoad e k) l).

Definition count_not_after (l : list BoxInTransit) (k : BoxInTransit) : nat :=
  length (filter (fun e => negb (BoxInTransitMoreLoad k e)) l).

(** The loads [computeLoad] gives the boxes of a list, added up. *)
Fixpoint load_sum (boxes : list Box) : LoadType :=
  match boxes with
  | [] => 0%Q
  | b :: boxes' => (computeLoad b + load_sum boxes')%Q
  end.

(** The boxes of a list tile a box: every index of the box lies in
    exactly one of them and no other index lies in any. *)
Definition tiles (pieces : list Box) (box : Box) : Prop :=
  forall p, covering pieces p = if contains box p then 1%nat else O.

(** Every cell of [a] is a cell of [b]. *)
Definition cells_within (a b : Box) : Prop :=
  forall p, contains a p = true -> contains b p = true.




(* ================================================================== *)
(** ** Concrete data used by the examples *)
(* ================================================================== *)

(** Records used in the examples: a 2x2 box owned by rank 0. *)
Definition box2x2 (lid : Z) : Box := mkBox [(0, 1); (0, 1)] 0 (mkBoxId 0 lid).


Definition rec_u4 : BoxInTransit := mkBoxInTransit (box2x2 1) (box2x2 1) 4%Q.
Definition rec_u2 : BoxInTransit :=
  mkBoxInTransit (mkBox [(0, 1); (0, 0)] 0 (mkBoxId 0 0))
                 (box2x2 1) 2%Q.


(** The key of [rec_u4] with the load 3 instead of the cell count 4. *)
Definition rec_k3 : BoxInTransit := mkBoxInTransit (box2x2 1) (box2x2 1) 3%Q.

(** The set holding [rec_u4] alone. *)
Definition set_u4 : TransitSet := snd (TS.insert TS.new rec_u4).

Definition set_u : TransitSet :=
  snd (TS.insert (snd (TS.insert TS.new rec_u2)) rec_u4).

Definition box_3x4 : Box := mkBox [(0, 2); (10, 13)] 0 (mkBoxId 0 7).
Definition box_shift : Box := mkBox [(1, 5); (12, 20)] 0 (mkBoxId 1 3).

Definition box_8x8 : Box := mkBox [(0, 7); (0, 7)] 0 (mkBoxId 0 0).
Definition box_core : Box := mkBox [(2, 4); (0, 5)] 0 (mkBoxId 0 1).

(** Configurations for the examples: only the imbalance is penalised and
    the plane four cells above the lower bound is bad on both axes.  The
    corner piece is 4 by 8 cells in the first, 5 by 6 cells in the second. *)
Definition bad_plane_4 (box : Box) : list (list bool) :=
  [[false; false; false; false; true];
   [false; false; false; false; true]].

Definition pp_example : PartitioningParams :=
  mkPartitioningParams 1 0 0 bad_plane_4
    (fun _ _ => 0%Q) (fun _ _ => 0%Q) (fun _ _ => [4; 8]).

Definition pp_corner : PartitioningParams :=
  mkPartitioningParams 1 0 0 bad_plane_4
    (fun _ _ => 0%Q) (fun _ _ => 0%Q) (fun _ _ => [5; 6]).

(** Three records on which the comparator runs in a circle: loads 3, 2
    and 1, the first and the last on boxes of one cell with ids 5 and 4,
    the middle one on a box of two cells. *)
Definition cyc_a : BoxInTransit :=
  mkBoxInTransit (mkBox [(0, 0)] 0 (mkBoxId 0 5)) (mkBox [(0, 0)] 0 (mkBoxId 0 5)) 3%Q.
Definition cyc_b : BoxInTransit :=
  mkBoxInTransit (mkBox [(0, 1)] 0 (mkBoxId 0 6)) (mkBox [(0, 1)] 0 (mkBoxId 0 6)) 2%Q.
Definition cyc_c : BoxInTransit :=
  mkBoxInTransit (mkBox [(0, 0)] 0 (mkBoxId 0 4)) (mkBox [(0, 0)] 0 (mkBoxId 0 4)) 1%Q.

(** The 8x8 box cut in two along its first axis. *)
Definition box_left : Box := mkBox [(0, 3); (0, 7)] 0 (mkBoxId 0 2).
Definition box_right : Box := mkBox [(4, 7); (0, 7)] 0 (mkBoxId 0 3).

(** A subtree of two processes holding 30 against an ideal of 20 and an
    upper limit of 21. *)
Definition subtree_over : SubtreeData :=
  mkSubtreeData 0 2 30 20 21 2 30 20 21 TS.new false.

(* ================================================================== *)
(** * Properties *)
(* ================================================================== *)

(* ------------------------------------------------------------------ *)
(** *** Facts about the ordering *)

Lemma load_gtb_spec (a b : LoadType) : load_gtb a b = true <-> (b < a)%Q.
Proof.
  unfold load_gtb. rewrite negb_true_iff.
  split; intro H.
  - apply Qnot_le_lt. intro Hle. apply Qle_bool_iff in Hle. congruence.
  - destruct (Qle_bool a b) eqn:E; [|reflexivity].
    apply Qle_bool_iff in E. exfalso. exact (Qlt_not_le _ _ H E).
Qed.

Lemma load_gtb_irrefl (a : LoadType) : load_gtb a a = false.
Proof.
  destruct (load_gtb a a) eqn:E; [|reflexivity].
  apply load_gtb_spec in E. exfalso. exact (Qlt_irrefl _ E).
Qed.

Lemma BoxId_ltb_irrefl (i : BoxId) : BoxId_ltb i i = false.
Proof.
  unfold BoxId_ltb. rewrite !Z.ltb_irrefl, Z.eqb_refl. reflexivity.
Qed.

Lemma MoreLoad_irrefl (a : BoxInTransit) : BoxInTransitMoreLoad a a = false.
Proof.
  unfold BoxInTransitMoreLoad. rewrite Z.eqb_refl. simpl.
  apply BoxId_ltb_irrefl.
Qed.

Lemma key_equiv_refl (a : BoxInTransit) : key_equiv a a = true.
Proof. unfold key_equiv. rewrite MoreLoad_irrefl. reflexivity. Qed.

Lemma MoreLoad_asym (a b : BoxInTransit) :
  BoxInTransitMoreLoad a b = true -> BoxInTransitMoreLoad b a = false.
Proof.
  unfold BoxInTransitMoreLoad. rewrite (Z.eqb_sym (size (getBox b))).
  destruct (size (getBox a) =? size (getBox b)); simpl.
  - unfold BoxId_ltb. intros H.
    apply orb_true_iff in H. rewrite andb_true_iff in H.
    rewrite !Z.ltb_lt, Z.eqb_eq in H.
    apply orb_false_iff. rewrite andb_false_iff, !Z.ltb_ge, Z.eqb_neq.
    split; [lia|].
    destruct (Z.eq_dec (owner_rank (getBoxId (d_box b)))
                       (owner_rank (getBoxId (d_box a)))); [right|left]; lia.
  - intros H. apply load_gtb_spec in H.
    destruct (load_gtb (d_boxload b) (d_boxload a)) eqn:E; [|reflexivity].
    apply load_gtb_spec in E. exfalso.
    exact (Qlt_irrefl _ (Qlt_trans _ _ _ H E)).
Qed.

(** Under the uniform load model two boxes have the same cell count
    exactly when the records carry the same load. *)
Lemma uniform_size_eq (a b : BoxInTransit) :
  uniform_load a -> uniform_load b ->
  (size (getBox a) = size (getBox b) <-> (d_boxload a == d_boxload b)%Q).
Proof.
  unfold uniform_load, getBox. intros Ha Hb. rewrite Ha, Hb. split.
  - intros ->. reflexivity.
  - intros H. exact (proj1 (inject_Z_injective _ _) H).
Qed.

(** The comparator, case by case, for arbitrary records. *)
Lemma MoreLoad_cases (a b : BoxInTransit) :
  BoxInTransitMoreLoad a b = true <->
  (size (getBox a) <> size (getBox b) /\ (d_boxload b < d_boxload a)%Q)
  \/ (size (getBox a) = size (getBox b)
      /\ BoxId_lt (getBoxId (d_box a)) (getBoxId (d_box b))).
Proof.
  unfold BoxInTransitMoreLoad, BoxId_lt.
  destruct (size (getBox a) =? size (getBox b)) eqn:E; simpl.
  - apply Z.eqb_eq in E. split.
    + intros H. right. split; assumption.
    + intros [[H _] | [_ H]]; [contradiction | exact H].
  - apply Z.eqb_neq in E. rewrite load_gtb_spec. split.
    + intros H. left. split; assumption.
    + intros [[_ H] | [H _]]; [exact H | contradiction].
Qed.

Lemma MoreLoad_uniform_iff (a b : BoxInTransit) :
  uniform_load a -> uniform_load b ->
  (BoxInTransitMoreLoad a b = true <-> more_load_then_id a b).
Proof.
  intros Ha Hb. pose proof (uniform_size_eq a b Ha Hb) as Hsz.
  rewrite MoreLoad_cases. unfold more_load_then_id. split.
  - intros [[_ H] | [H1 H2]]; [left; exact H|].
    right. split; [apply Hsz; exact H1 | exact H2].
  - intros [H | [H1 H2]].
    + left. split; [|exact H]. intros E. apply Hsz in E.
      rewrite E in H. exact (Qlt_irrefl _ H).
    + right. split; [apply Hsz; exact H1 | exact H2].
Qed.


(** X20: [BoxInTransitMoreLoad a b] holds iff the boxes differ in cell
    count and [a] has more load than [b], or the boxes have the same cell
    count and the box id of [a] is below that of [b].  For records whose
    load is the cell count of their box (the only loads [computeLoad]
    produces) this is the documented order: [a] has more load than [b],
    or the loads are equal and the box id of [a] is below that of [b]. *)
Theorem MoreLoad_uniform_order (a b : BoxInTransit) :
  (BoxInTransitMoreLoad a b = true <->
   (size (getBox a) <> size (getBox b) /\ (d_boxload b < d_boxload a)%Q)
   \/ (size (getBox a) = size (getBox b)
       /\ BoxId_lt (getBoxId (d_box a)) (getBoxId (d_box b))))
  /\ (uniform_load a -> uniform_load b ->
      (BoxInTransitMoreLoad a b = true <-> more_load_then_id a b)).
Proof.
  split.
  - apply MoreLoad_cases.
  - apply MoreLoad_uniform_iff.
Qed.

Lemma MoreLoad_uniform_order_witness :
  uniform_load rec_u4 /\ uniform_load rec_u2 /\
  (BoxInTransitMoreLoad rec_u4 rec_u2 = true <-> more_load_then_id rec_u4 rec_u2).
Proof.
  assert (H4 : uniform_load rec_u4) by reflexivity.
  assert (H2 : uniform_load rec_u2) by reflexivity.
  split; [exact H4|]. split; [exact H2|].
  exact (proj2 (MoreLoad_uniform_order rec_u4 rec_u2) H4 H2).
Defined.

(* ================================================================== *)
(** ** Sums of loads *)
(* ================================================================== *)

Lemma sum_loop_from (l : list BoxInTransit) (a : LoadType) :
  (fold_left (fun load bi => load + d_boxload bi) l a == a + total_load l)%Q.
Proof.
  revert a. induction l as [|e l IH]; intros a; simpl.
  - ring.
  - rewrite IH. ring.
Qed.

Lemma computeLoad_set_total (s : TransitSet) :
  (computeLoad_set s == total_load (d_set s))%Q.
Proof. unfold computeLoad_set. rewrite sum_loop_from. ring. Qed.

Lemma sum_ok_iff (s : TransitSet) :
  sum_ok s <-> (d_sumload s == total_load (d_set s))%Q.
Proof.
  unfold sum_ok, TS.getSumLoad. rewrite computeLoad_set_total. reflexivity.
Qed.

Lemma total_load_app (l1 l2 : list BoxInTransit) :
  (total_load (l1 ++ l2) == total_load l1 + total_load l2)%Q.
Proof.
  induction l1 as [|e l1 IH]; simpl.
  - ring.
  - rewrite IH. ring.
Qed.

(* ================================================================== *)
(** ** The ordered set: lookups, insertions, erasures *)
(* ================================================================== *)

Lemma find_sound (l : StdSet.t) (k y : BoxInTransit) :
  StdSet.find l k = Some y -> In y l /\ key_equiv k y = true.
Proof.
  induction l as [|e l IH]; simpl; [discriminate|].
  destruct (BoxInTransitMoreLoad e k) eqn:Eek.
  - intros H. destruct (IH H) as [Hin Heq]. split; [right|]; assumption.
  - destruct (BoxInTransitMoreLoad k e) eqn:Eke; [discriminate|].
    intros H. injection H as <-. split; [left; reflexivity|].
    unfold key_equiv. rewrite Eek, Eke. reflexivity.
Qed.

(** The lookup is the library's: go to the lower bound of the key and
    test the element there for equivalence. *)
Lemma find_at_lower_bound (l : StdSet.t) (k : BoxInTransit) :
  StdSet.find l k =
  match nth_error l (StdSet.lower_bound l k) with
  | Some e => if BoxInTransitMoreLoad k e then None else Some e
  | None => None
  end.
Proof.
  induction l as [|e l IH]; simpl; [reflexivity|].
  destruct (BoxInTransitMoreLoad e k); simpl; [exact IH | reflexivity].
Qed.

(** An insertion that goes in puts the element at the lower bound of
    its key. *)
Lemma insert_at_lower_bound (l : StdSet.t) (x : BoxInTransit) :
  snd (StdSet.insert l x) = true ->
  fst (StdSet.insert l x)
  = firstn (StdSet.lower_bound l x) l ++ x :: skipn (StdSet.lower_bound l x) l.
Proof.
  induction l as [|e l IH]; simpl; [reflexivity|].
  destruct (BoxInTransitMoreLoad e x); simpl.
  - intros H. rewrite (IH H). reflexivity.
  - destruct (BoxInTransitMoreLoad x e); simpl; [reflexivity | discriminate].
Qed.

(** An erasure by key that finds its element takes out the one at the
    lower bound of the key. *)
Lemma erase_at_lower_bound (l : StdSet.t) (k y : BoxInTransit) :
  StdSet.find l k = Some y ->
  fst (StdSet.erase l k) = StdSet.erase_at l (StdSet.lower_bound l k)
  /\ nth_error l (StdSet.lower_bound l k) = Some y.
Proof.
  induction l as [|e l IH]; simpl; [discriminate|].
  destruct (BoxInTransitMoreLoad e k); simpl.
  - intros H. destruct (IH H) as [H1 H2]. rewrite H1. split; [reflexivity|exact H2].
  - destruct (BoxInTransitMoreLoad k e); [discriminate|].
    intros H. split; [reflexivity | exact H].
Qed.

Lemma insert_snd_find (l : StdSet.t) (x : BoxInTransit) :
  snd (StdSet.insert l x) =
  match StdSet.find l x with Some _ => false | None => true end.
Proof.
  induction l as [|e l IH]; simpl; [reflexivity|].
  destruct (BoxInTransitMoreLoad e x); simpl; [exact IH|].
  destruct (BoxInTransitMoreLoad x e); reflexivity.
Qed.

Lemma insert_refused_same (l : StdSet.t) (x : BoxInTransit) :
  snd (StdSet.insert l x) = false -> fst (StdSet.insert l x) = l.
Proof.
  induction l as [|e l IH]; simpl; [discriminate|].
  destruct (BoxInTransitMoreLoad e x); simpl.
  - intros H. rewrite (IH H). reflexivity.
  - destruct (BoxInTransitMoreLoad x e); simpl; [discriminate|reflexivity].
Qed.

Lemma insert_done_length (l : StdSet.t) (x : BoxInTransit) :
  snd (StdSet.insert l x) = true ->
  length (fst (StdSet.insert l x)) = S (length l).
Proof.
  induction l as [|e l IH]; simpl; [reflexivity|].
  destruct (BoxInTransitMoreLoad e x); simpl.
  - intros H. rewrite (IH H). reflexivity.
  - destruct (BoxInTransitMoreLoad x e); simpl; [reflexivity|discriminate].
Qed.

Lemma insert_done_total (l : StdSet.t) (x : BoxInTransit) :
  snd (StdSet.insert l x) = true ->
  (total_load (fst (StdSet.insert l x)) == total_load l + d_boxload x)%Q.
Proof.
  induction l as [|e l IH]; simpl.
  - intros _. ring.
  - destruct (BoxInTransitMoreLoad e x); simpl.
    + intros H. rewrite (IH H). ring.
    + destruct (BoxInTransitMoreLoad x e); simpl; [|discriminate].
      intros _. ring.
Qed.

Lemma insert_done_In (l : StdSet.t) (x : BoxInTransit) :
  snd (StdSet.insert l x) = true -> In x (fst (StdSet.insert l x)).
Proof.
  induction l as [|e l IH]; simpl.
  - intros _. left. reflexivity.
  - destruct (BoxInTransitMoreLoad e x); simpl.
    + intros H. right. exact (IH H).
    + destruct (BoxInTransitMoreLoad x e); simpl; [|discriminate].
      intros _. left. reflexivity.
Qed.

Lemma insert_keeps (l : StdSet.t) (x e : BoxInTransit) :
  In e l -> In e (fst (StdSet.insert l x)).
Proof.
  induction l as [|e0 l IH]; simpl; [contradiction|].
  destruct (BoxInTransitMoreLoad e0 x); simpl.
  - intros [H | H]; [left; exact H | right; exact (IH H)].
  - destruct (BoxInTransitMoreLoad x e0); simpl.
    + intros H. right. exact H.
    + intros H. exact H.
Qed.

Lemma insert_In_inv (l : StdSet.t) (x e : BoxInTransit) :
  In e (fst (StdSet.insert l x)) -> e = x \/ In e l.
Proof.
  induction l as [|e0 l IH]; simpl.
  - intros [H | []]. left. symmetry. exact H.
  - destruct (BoxInTransitMoreLoad e0 x); simpl.
    + intros [H | H]; [right; left; exact H|].
      destruct (IH H) as [H' | H']; [left | right; right]; assumption.
    + destruct (BoxInTransitMoreLoad x e0); simpl.
      * intros [H | H]; [left; symmetry; exact H | right; exact H].
      * intros H. right. exact H.
Qed.

(** Once inserted, the key is found. *)
Lemma find_after_insert (l : StdSet.t) (x : BoxInTransit) :
  exists y, StdSet.find (fst (StdSet.insert l x)) x = Some y.
Proof.
  induction l as [|e l IH]; simpl.
  - rewrite MoreLoad_irrefl. exists x. reflexivity.
  - destruct (BoxInTransitMoreLoad e x) eqn:Eex; simpl.
    + rewrite Eex. exact IH.
    + destruct (BoxInTransitMoreLoad x e) eqn:Exe; simpl.
      * rewrite MoreLoad_irrefl. exists x. reflexivity.
      * rewrite Eex, Exe. exists e. reflexivity.
Qed.

Lemma erase_none (l : StdSet.t) (k : BoxInTransit) :
  StdSet.find l k = None -> StdSet.erase l k = (l, O).
Proof.
  induction l as [|e l IH]; simpl; [reflexivity|].
  destruct (BoxInTransitMoreLoad e k).
  - intros H. rewrite (IH H). reflexivity.
  - destruct (BoxInTransitMoreLoad k e); [reflexivity|discriminate].
Qed.

Lemma erase_some (l : StdSet.t) (k y : BoxInTransit) :
  StdSet.find l k = Some y ->
  snd (StdSet.erase l k) = 1%nat
  /\ (total_load l == total_load (fst (StdSet.erase l k)) + d_boxload y)%Q
  /\ length l = S (length (fst (StdSet.erase l k)))
  /\ (forall e, In e (fst (StdSet.erase l k)) -> In e l).
Proof.
  induction l as [|e l IH]; simpl; [discriminate|].
  destruct (BoxInTransitMoreLoad e k).
  - intros H. destruct (IH H) as (Hn & Ht & Hl & Hin). simpl.
    repeat split.
    + exact Hn.
    + rewrite Ht. ring.
    + rewrite Hl. reflexivity.
    + intros e0 [H0 | H0]; [left; exact H0 | right; exact (Hin _ H0)].
  - destruct (BoxInTransitMoreLoad k e); [discriminate|].
    intros H. injection H as <-. simpl. repeat split.
    + ring.
    + intros e0 H0. right. exact H0.
Qed.

Lemma erase_at_total (l : StdSet.t) (pos : nat) (e : BoxInTransit) :
  nth_error l pos = Some e ->
  (total_load l == total_load (StdSet.erase_at l pos) + d_boxload e)%Q.
Proof.
  revert pos. induction l as [|e0 l IH]; intros [|p]; simpl; try discriminate.
  - intros H. injection H as <-. ring.
  - intros H. rewrite (IH p H). ring.
Qed.

Lemma insert_range_cons (l : StdSet.t) (x : BoxInTransit) (xs : list BoxInTransit) :
  StdSet.insert_range l (x :: xs) =
  StdSet.insert_range (fst (StdSet.insert l x)) xs.
Proof. reflexivity. Qed.

Lemma insert_range_length_le (xs : list BoxInTransit) (l : StdSet.t) :
  (length l <= length (StdSet.insert_range l xs) <= length l + length xs)%nat.
Proof.
  revert l. induction xs as [|x xs IH]; intros l.
  - simpl. lia.
  - rewrite insert_range_cons. specialize (IH (fst (StdSet.insert l x))).
    destruct (snd (StdSet.insert l x)) eqn:E.
    + rewrite (insert_done_length l x E) in IH. cbn [length]. lia.
    + rewrite (insert_refused_same l x E) in IH |- *. cbn [length]. lia.
Qed.

(* ================================================================== *)
(** ** The comparator on uniform loads is a strict total order on keys *)
(* ================================================================== *)

(** Under the uniform load model the comparator reads the key
    (cell count descending, owner rank, local id). *)
Lemma MoreLoad_uniform_key (a b : BoxInTransit) :
  uniform_load a -> uniform_load b ->
  (BoxInTransitMoreLoad a b = true <->
   size (d_box b) < size (d_box a)
   \/ (size (d_box a) = size (d_box b)
       /\ (owner_rank (box_id (d_box a)) < owner_rank (box_id (d_box b))
           \/ (owner_rank (box_id (d_box a)) = owner_rank (box_id (d_box b))
               /\ local_id (box_id (d_box a)) < local_id (box_id (d_box b)))))).
Proof.
  intros Ha Hb. rewrite MoreLoad_cases.
  unfold uniform_load in Ha, Hb. unfold getBox, getBoxId, BoxId_lt, BoxId_ltb.
  rewrite Ha, Hb, <- Zlt_Qlt.
  rewrite orb_true_iff, andb_true_iff, !Z.ltb_lt, Z.eqb_eq.
  split.
  - intros [[_ H] | [H1 H2]]; [left; exact H | right; split; assumption].
  - intros [H | [H1 H2]]; [left; split; [lia | exact H] | right; split; assumption].
Qed.

Lemma MoreLoad_false_iff (a b : BoxInTransit) :
  BoxInTransitMoreLoad a b = false <-> ~ BoxInTransitMoreLoad a b = true.
Proof. destruct (BoxInTransitMoreLoad a b); split; congruence. Qed.

Lemma key_equiv_iff (a b : BoxInTransit) :
  key_equiv a b = true <->
  BoxInTransitMoreLoad a b = false /\ BoxInTransitMoreLoad b a = false.
Proof.
  unfold key_equiv. rewrite andb_true_iff, !negb_true_iff. reflexivity.
Qed.

Lemma key_equiv_sym (a b : BoxInTransit) : key_equiv a b = key_equiv b a.
Proof. unfold key_equiv. apply andb_comm. Qed.

Lemma MoreLoad_uniform_trans (a b c : BoxInTransit) :
  uniform_load a -> uniform_load b -> uniform_load c ->
  BoxInTransitMoreLoad a b = true -> BoxInTransitMoreLoad b c = true ->
  BoxInTransitMoreLoad a c = true.
Proof.
  intros Ha Hb Hc.
  rewrite (MoreLoad_uniform_key a b Ha Hb), (MoreLoad_uniform_key b c Hb Hc),
          (MoreLoad_uniform_key a c Ha Hc).
  lia.
Qed.

(** A key equivalent to [b] sits on the same side of [a] as [b] does. *)
Lemma MoreLoad_uniform_equiv_r (a b c : BoxInTransit) :
  uniform_load a -> uniform_load b -> uniform_load c ->
  BoxInTransitMoreLoad a b = true -> key_equiv c b = true ->
  BoxInTransitMoreLoad a c = true.
Proof.
  intros Ha Hb Hc. rewrite key_equiv_iff, !MoreLoad_false_iff.
  rewrite (MoreLoad_uniform_key a b Ha Hb), (MoreLoad_uniform_key c b Hc Hb),
          (MoreLoad_uniform_key b c Hb Hc), (MoreLoad_uniform_key a c Ha Hc).
  lia.
Qed.

(** Equivalent uniform records carry the same load and the same box id. *)
Lemma key_equiv_uniform (a b : BoxInTransit) :
  uniform_load a -> uniform_load b -> key_equiv a b = true ->
  (d_boxload a == d_boxload b)%Q /\ box_id (d_box a) = box_id (d_box b).
Proof.
  intros Ha Hb. rewrite key_equiv_iff, !MoreLoad_false_iff.
  rewrite (MoreLoad_uniform_key a b Ha Hb), (MoreLoad_uniform_key b a Hb Ha).
  intros [H1 H2]. split.
  - apply (uniform_size_eq a b Ha Hb). unfold getBox. lia.
  - destruct (box_id (d_box a)) as [ra la], (box_id (d_box b)) as [rb lb].
    simpl in *. f_equal; lia.
Qed.

(** On an ordered set the walk finds every stored equivalent of a key. *)
Lemma find_complete (l : StdSet.t) (x y : BoxInTransit) :
  ordered_set l -> uniform_load x ->
  In y l -> key_equiv x y = true -> StdSet.find l x = Some y.
Proof.
  intros [Hs Hu] Hx. induction l as [|e l IH]; simpl; [contradiction|].
  apply StronglySorted_inv in Hs. destruct Hs as [Hs He].
  apply Forall_cons_iff in Hu. destruct Hu as [Hue Hu].
  intros [<- | Hin] Heq.
  - apply key_equiv_iff in Heq. destruct Heq as [H1 H2].
    rewrite H2, H1. reflexivity.
  - assert (Hey : BoxInTransitMoreLoad e y = true).
    { rewrite Forall_forall in He. exact (He y Hin). }
    assert (Huy : uniform_load y).
    { rewrite Forall_forall in Hu. exact (Hu y Hin). }
    rewrite (MoreLoad_uniform_equiv_r e y x Hue Huy Hx Hey Heq).
    exact (IH Hs Hu Hin Heq).
Qed.

(** Insertion of a uniform record keeps the set ordered. *)
Lemma insert_ordered (l : StdSet.t) (x : BoxInTransit) :
  ordered_set l -> uniform_load x -> ordered_set (fst (StdSet.insert l x)).
Proof.
  intros [Hs Hu] Hx. induction l as [|e l IH]; simpl.
  - split; repeat constructor. exact Hx.
  - pose proof Hs as Hs0. pose proof Hu as Hu0.
    apply StronglySorted_inv in Hs. destruct Hs as [Hs He].
    apply Forall_cons_iff in Hu. destruct Hu as [Hue Hu].
    destruct (BoxInTransitMoreLoad e x) eqn:Eex; simpl.
    + destruct (IH Hs Hu) as [IHs IHu]. split.
      * constructor; [exact IHs|].
        apply Forall_forall. intros z Hz.
        apply insert_In_inv in Hz. destruct Hz as [-> | Hz]; [exact Eex|].
        rewrite Forall_forall in He. exact (He z Hz).
      * constructor; assumption.
    + destruct (BoxInTransitMoreLoad x e) eqn:Exe; simpl.
      * split; [|constructor; assumption].
        constructor; [exact Hs0|].
        constructor; [exact Exe|].
        apply Forall_forall. intros z Hz.
        assert (Huz : uniform_load z).
        { rewrite Forall_forall in Hu. exact (Hu z Hz). }
        rewrite Forall_forall in He.
        exact (MoreLoad_uniform_trans x e z Hx Hue Huz Exe (He z Hz)).
      * split; assumption.
Qed.

(* ================================================================== *)
(** ** TransitSet: the cached sum *)
(* ================================================================== *)

Lemma TS_insert_sum_ok (s : TransitSet) (x : BoxInTransit) :
  sum_ok s -> sum_ok (snd (TS.insert s x)).
Proof.
  rewrite !sum_ok_iff. unfold TS.insert. simpl. intros H.
  destruct (snd (StdSet.insert (d_set s) x)) eqn:E.
  - rewrite (insert_done_total _ _ E), H. reflexivity.
  - rewrite (insert_refused_same _ _ E). exact H.
Qed.

(** The range constructor sums what the set kept. *)
Lemma TS_of_range_sum_ok (xs : list BoxInTransit) : sum_ok (TS.of_range xs).
Proof. unfold sum_ok, TS.getSumLoad, TS.of_range, computeLoad_set. reflexivity. Qed.

Lemma range_loop (xs : list BoxInTransit) (a : LoadType) (n : nat) :
  snd (fold_left (fun st i => ((fst st + d_boxload i)%Q, S (snd st))) xs (a, n))
  = (n + length xs)%nat
  /\ (fst (fold_left (fun st i => ((fst st + d_boxload i)%Q, S (snd st))) xs (a, n))
      == a + total_load xs)%Q.
Proof.
  revert a n. induction xs as [|x xs IH]; intros a n; simpl.
  - split; [lia | ring].
  - destruct (IH (a + d_boxload x)%Q (S n)) as [H1 H2]. split.
    + rewrite H1. lia.
    + rewrite H2. ring.
Qed.

(** A range insert without a collision puts every element in. *)
Lemma insert_range_clean (xs : list BoxInTransit) (l : StdSet.t) :
  range_collides l xs = false ->
  length (StdSet.insert_range l xs) = (length l + length xs)%nat
  /\ (total_load (StdSet.insert_range l xs) == total_load l + total_load xs)%Q
  /\ (forall x, In x xs -> In x (StdSet.insert_range l xs))
  /\ (forall e, In e l -> In e (StdSet.insert_range l xs)).
Proof.
  revert l. induction xs as [|x xs IH]; intros l; simpl range_collides.
  - intros _. simpl. repeat split.
    + lia.
    + ring.
    + contradiction.
    + trivial.
  - destruct (StdSet.find l x) eqn:Ef; [discriminate|].
    intros Hc. rewrite insert_range_cons.
    assert (E : snd (StdSet.insert l x) = true).
    { rewrite insert_snd_find, Ef. reflexivity. }
    destruct (IH _ Hc) as (Hl & Ht & Hx & He).
    repeat split.
    + rewrite Hl, (insert_done_length _ _ E). cbn [length]. lia.
    + rewrite Ht, (insert_done_total _ _ E). simpl. ring.
    + intros z [<- | Hz]; [|exact (Hx z Hz)].
      apply He. exact (insert_done_In _ _ E).
    + intros e Hin. apply He. apply insert_keeps. exact Hin.
Qed.

(** A range insert with a collision leaves the set short. *)
Lemma insert_range_short (xs : list BoxInTransit) (l : StdSet.t) :
  range_collides l xs = true ->
  (length (StdSet.insert_range l xs) < length l + length xs)%nat.
Proof.
  revert l. induction xs as [|x xs IH]; intros l; simpl range_collides.
  - discriminate.
  - rewrite insert_range_cons. destruct (StdSet.find l x) eqn:Ef.
    + intros _.
      assert (E : snd (StdSet.insert l x) = false).
      { rewrite insert_snd_find, Ef. reflexivity. }
      rewrite (insert_refused_same _ _ E).
      pose proof (insert_range_length_le xs l). cbn [length]. lia.
    + intros Hc.
      assert (E : snd (StdSet.insert l x) = true).
      { rewrite insert_snd_find, Ef. reflexivity. }
      specialize (IH _ Hc). rewrite (insert_done_length _ _ E) in IH.
      cbn [length]. lia.
Qed.

Lemma TS_insert_range_sum_ok (s s' : TransitSet) (xs : list BoxInTransit) :
  sum_ok s -> TS.insert_range s xs = Done s' -> sum_ok s'.
Proof.
  rewrite !sum_ok_iff. unfold TS.insert_range, TS.size. intros H.
  destruct (range_loop xs (d_sumload s) (length (d_set s))) as [Hn Hs].
  rewrite Hn.
  destruct (range_collides (d_set s) xs) eqn:Ec.
  - pose proof (insert_range_short _ _ Ec) as Hlt.
    destruct (Nat.eqb_spec (length (d_set s) + length xs)
                           (length (StdSet.insert_range (d_set s) xs)));
      simpl; [lia | discriminate].
  - destruct (insert_range_clean _ _ Ec) as (Hl & Ht & _).
    rewrite Hl, Nat.eqb_refl. simpl. intros E. injection E as <-. simpl.
    rewrite Hs, Ht, H. reflexivity.
Qed.

Lemma TS_erase_pos_sum_ok (s s' : TransitSet) (pos : nat) :
  sum_ok s -> TS.erase_pos s pos = Some s' -> sum_ok s'.
Proof.
  rewrite !sum_ok_iff. unfold TS.erase_pos. intros H.
  destruct (nth_error (d_set s) pos) as [e|] eqn:E; [|discriminate].
  intros E'. injection E' as <-. simpl.
  rewrite H, (erase_at_total _ _ _ E). ring.
Qed.

Lemma TS_erase_unchanged (s : TransitSet) (k : BoxInTransit) :
  StdSet.find (d_set s) k = None -> TS.erase s k = (O, s).
Proof.
  intros Ef. unfold TS.erase. rewrite (erase_none _ _ Ef). simpl.
  destruct s; reflexivity.
Qed.

Lemma TS_erase_found (s : TransitSet) (k y : BoxInTransit) :
  StdSet.find (d_set s) k = Some y ->
  fst (TS.erase s k) = 1%nat
  /\ d_sumload (snd (TS.erase s k)) = (d_sumload s - d_boxload k)%Q
  /\ (total_load (d_set s)
      == total_load (d_set (snd (TS.erase s k))) + d_boxload y)%Q.
Proof.
  intros Ef. destruct (erase_some _ _ _ Ef) as (Hn & Ht & _).
  unfold TS.erase. simpl. rewrite Hn. simpl. repeat split. exact Ht.
Qed.

Lemma TS_erase_sum_ok (s : TransitSet) (k : BoxInTransit) :
  sum_ok s -> key_load_matches s k -> sum_ok (snd (TS.erase s k)).
Proof.
  intros H Hk. destruct (StdSet.find (d_set s) k) as [y|] eqn:Ef.
  - destruct (TS_erase_found s k y Ef) as (_ & Hs & Ht).
    rewrite sum_ok_iff in *. rewrite Hs, H, Ht, (Hk y Ef). ring.
  - rewrite (TS_erase_unchanged s k Ef). exact H.
Qed.

Lemma erase_at_In (l : StdSet.t) (pos : nat) (e : BoxInTransit) :
  In e (StdSet.erase_at l pos) -> In e l.
Proof.
  revert pos. induction l as [|e0 l IH]; intros [|p]; simpl; try contradiction.
  - intros H. right. exact H.
  - intros [H | H]; [left; exact H | right; exact (IH p H)].
Qed.

Lemma erase_In (l : StdSet.t) (k e : BoxInTransit) :
  In e (fst (StdSet.erase l k)) -> In e l.
Proof.
  destruct (StdSet.find l k) as [y|] eqn:Ef.
  - destruct (erase_some l k y Ef) as (_ & _ & _ & H). apply H.
  - rewrite (erase_none l k Ef). trivial.
Qed.

Lemma insert_range_In_inv (xs : list BoxInTransit) (l : StdSet.t) (e : BoxInTransit) :
  In e (StdSet.insert_range l xs) -> In e xs \/ In e l.
Proof.
  revert l. induction xs as [|x xs IH]; intros l.
  - intros H. right. exact H.
  - rewrite insert_range_cons. intros H. destruct (IH _ H) as [H' | H'].
    + left. right. exact H'.
    + apply insert_In_inv in H'. destruct H' as [-> | H'].
      * left. left. reflexivity.
      * right. exact H'.
Qed.

Lemma TS_insert_range_set (s s' : TransitSet) (xs : list BoxInTransit) :
  TS.insert_range s xs = Done s' ->
  d_set s' = StdSet.insert_range (d_set s) xs.
Proof.
  unfold TS.insert_range. destruct (negb _); [discriminate|].
  intros E. injection E as <-. reflexivity.
Qed.

(** Sets built from uniform records hold uniform records only. *)
Lemma reachable_uniform_elements (s : TransitSet) :
  reachable uniform_load any_key s -> Forall uniform_load (d_set s).
Proof.
  intros R.
  induction R as [ | s x _ IH Hx | s xs s' _ IH Hxs E | s pos s' _ IH E
                 | s k _ IH _ _ | s _ _ | s o _ IHs _ IHo | s o _ IHs _ IHo ];
    try rewrite Forall_forall in IH; simpl.
  - constructor.
  - apply Forall_forall. intros e He.
    apply insert_In_inv in He. destruct He as [-> | He]; auto.
  - rewrite (TS_insert_range_set _ _ _ E). apply Forall_forall. intros e He.
    apply insert_range_In_inv in He. destruct He as [He | He]; auto.
    rewrite Forall_forall in Hxs. auto.
  - unfold TS.erase_pos in E.
    destruct (nth_error (d_set s) pos); [|discriminate].
    injection E as <-. simpl. apply Forall_forall. intros e He.
    apply erase_at_In in He. auto.
  - apply Forall_forall. intros e He. apply erase_In in He. auto.
  - constructor.
  - exact IHo.
  - exact IHs.
Qed.

(** On uniform records every erase-by-key is handed the load of the
    element it erases. *)
Lemma reachable_uniform_matches (s : TransitSet) :
  reachable uniform_load any_key s ->
  reachable any_record key_load_matches s.
Proof.
  intros R.
  induction R as [ | s x R IH Hx | s xs s' R IH Hxs E | s pos s' R IH E
                 | s k R IH Hk _ | s R IH | s o Rs IHs Ro IHo
                 | s o Rs IHs Ro IHo ].
  - apply reach_new.
  - apply reach_insert; [exact IH | exact I].
  - apply (reach_insert_range _ _ s xs); [exact IH | | exact E].
    apply Forall_forall. intros. exact I.
  - exact (reach_erase_pos _ _ s pos s' IH E).
  - apply reach_erase_key; [exact IH | exact I |].
    intros y Ef. destruct (find_sound _ _ _ Ef) as [Hin Heq].
    pose proof (reachable_uniform_elements s R) as Hu.
    rewrite Forall_forall in Hu.
    exact (proj1 (key_equiv_uniform k y Hk (Hu y Hin) Heq)).
  - apply reach_clear. exact IH.
  - apply reach_swap_this; assumption.
  - apply reach_swap_other; assumption.
Qed.

Lemma reachable_sum_ok (s : TransitSet) :
  reachable any_record key_load_matches s -> sum_ok s.
Proof.
  intros R.
  induction R as [ | s x _ IH _ | s xs s' _ IH _ E | s pos s' _ IH E
                 | s k _ IH _ Hk | s _ _ | s o _ IHs _ IHo | s o _ IHs _ IHo ].
  - reflexivity.
  - exact (TS_insert_sum_ok s x IH).
  - exact (TS_insert_range_sum_ok s s' xs IH E).
  - exact (TS_erase_pos_sum_ok s s' pos IH E).
  - exact (TS_erase_sum_ok s k IH Hk).
  - reflexivity.
  - exact IHo.
  - exact IHs.
Qed.

Lemma insert_range_ordered (xs : list BoxInTransit) (l : StdSet.t) :
  ordered_set l -> Forall uniform_load xs ->
  ordered_set (StdSet.insert_range l xs).
Proof.
  revert l. induction xs as [|x xs IH]; intros l Hl Hxs; [exact Hl|].
  apply Forall_cons_iff in Hxs. destruct Hxs as [Hx Hxs].
  rewrite insert_range_cons. apply IH; [|exact Hxs].
  exact (insert_ordered l x Hl Hx).
Qed.

(** Dropping elements keeps a set ordered. *)
Lemma ordered_set_sub (l l' : StdSet.t) (e : BoxInTransit) :
  ordered_set (e :: l) -> ordered_set l' ->
  (forall z, In z l' -> In z l) -> ordered_set (e :: l').
Proof.
  intros [Hs Hu] [Hs' Hu'] Hsub.
  apply StronglySorted_inv in Hs. destruct Hs as [_ He].
  apply Forall_cons_iff in Hu. destruct Hu as [Hue _].
  rewrite Forall_forall in He. split.
  - constructor; [exact Hs'|]. apply Forall_forall. intros z Hz.
    exact (He z (Hsub z Hz)).
  - constructor; assumption.
Qed.

Lemma ordered_set_tail (l : StdSet.t) (e : BoxInTransit) :
  ordered_set (e :: l) -> ordered_set l.
Proof.
  intros [Hs Hu]. apply StronglySorted_inv in Hs.
  apply Forall_cons_iff in Hu. split; tauto.
Qed.

Lemma erase_at_ordered (l : StdSet.t) (pos : nat) :
  ordered_set l -> ordered_set (StdSet.erase_at l pos).
Proof.
  revert pos. induction l as [|e l IH]; intros [|p] Hl; simpl;
    try exact Hl.
  - exact (ordered_set_tail l e Hl).
  - apply (ordered_set_sub l _ e Hl).
    + exact (IH p (ordered_set_tail l e Hl)).
    + intros z. apply erase_at_In.
Qed.

Lemma erase_ordered (l : StdSet.t) (k : BoxInTransit) :
  ordered_set l -> ordered_set (fst (StdSet.erase l k)).
Proof.
  induction l as [|e l IH]; intros Hl; simpl; [exact Hl|].
  destruct (BoxInTransitMoreLoad e k); simpl.
  - apply (ordered_set_sub l _ e Hl).
    + exact (IH (ordered_set_tail l e Hl)).
    + intros z. apply erase_In.
  - destruct (BoxInTransitMoreLoad k e); simpl;
      [exact Hl | exact (ordered_set_tail l e Hl)].
Qed.

(** Sets built from uniform records are ordered sets: strictly sorted by
    the comparator, with uniform elements. *)
Lemma reachable_uniform_ordered (s : TransitSet) :
  reachable uniform_load any_key s -> ordered_set (d_set s).
Proof.
  intros R.
  induction R as [ | s x _ IH Hx | s xs s' _ IH Hxs E | s pos s' _ IH E
                 | s k _ IH _ _ | s _ _ | s o _ IHs _ IHo | s o _ IHs _ IHo ];
    simpl.
  - split; constructor.
  - exact (insert_ordered _ x IH Hx).
  - rewrite (TS_insert_range_set _ _ _ E).
    exact (insert_range_ordered xs _ IH Hxs).
  - unfold TS.erase_pos in E.
    destruct (nth_error (d_set s) pos); [|discriminate].
    injection E as <-. simpl. exact (erase_at_ordered _ pos IH).
  - exact (erase_ordered _ k IH).
  - split; constructor.
  - exact IHo.
  - exact IHs.
Qed.

(** Sets built from uniform records have the right cached sum. *)
Lemma reachable_uniform_sum_ok (s : TransitSet) :
  reachable uniform_load any_key s -> sum_ok s.
Proof.
  intros R. exact (reachable_sum_ok s (reachable_uniform_matches s R)).
Qed.


(** X21: every TransitSet built from the empty one by insert (single and
    range), erase (by iterator and by key), clear and swap on records
    that carry the cell count of their box as load has [getSumLoad()]
    equal to the naive sum [computeLoad] takes over its elements. *)
Theorem TransitSet_sum_invariant (s : TransitSet) :
  reachable uniform_load any_key s ->
  (TS.getSumLoad s == computeLoad_set s)%Q.
Proof.
  exact (reachable_uniform_sum_ok s).
Qed.

Lemma TransitSet_sum_invariant_witness :
  reachable uniform_load any_key (snd (TS.erase set_u rec_u2))
  /\ (TS.getSumLoad (snd (TS.erase set_u rec_u2))
      == computeLoad_set (snd (TS.erase set_u rec_u2)))%Q.
Proof.
  assert (Ru : reachable uniform_load any_key (snd (TS.erase set_u rec_u2))).
  { apply reach_erase_key; [|reflexivity|exact I].
    unfold set_u.
    apply reach_insert; [apply reach_insert; [apply reach_new|]|]; reflexivity. }
  split; [exact Ru|].
  exact (TransitSet_sum_invariant _ Ru).
Defined.

(** The walk's notion of a collision is the declarative one on ordered
    sets: a range element equivalent to a stored element, or two range
    elements equivalent to each other. *)
Lemma range_collides_iff (xs : list BoxInTransit) (l : StdSet.t) :
  ordered_set l -> Forall uniform_load xs ->
  (range_collides l xs = true <-> clash_with l xs \/ dup_keys xs).
Proof.
  revert l. induction xs as [|x xs IH]; intros l Hl Hxs; simpl.
  - split; [discriminate|].
    intros [(x & y & [] & _) | []].
  - apply Forall_cons_iff in Hxs. destruct Hxs as [Hx Hxs].
    destruct (StdSet.find l x) as [y|] eqn:Ef.
    + split; [|reflexivity]. intros _. left.
      destruct (find_sound _ _ _ Ef) as [Hin Heq].
      exists x, y. repeat split; [left; reflexivity | exact Hin | exact Heq].
    + assert (E : snd (StdSet.insert l x) = true).
      { rewrite insert_snd_find, Ef. reflexivity. }
      rewrite (IH _ (insert_ordered l x Hl Hx) Hxs). split.
      * intros [(x' & y & Hx' & Hy & Heq) | Hd].
        -- apply insert_In_inv in Hy. destruct Hy as [-> | Hy].
           ++ right. left. exists x'. split; [exact Hx'|].
              rewrite key_equiv_sym. exact Heq.
           ++ left. exists x', y. repeat split; [right|..]; assumption.
        -- right. right. exact Hd.
      * intros [(x' & y & [<- | Hx'] & Hy & Heq) | [(x' & Hx' & Heq) | Hd]].
        -- rewrite (find_complete l x y Hl Hx Hy Heq) in Ef. discriminate.
        -- left. exists x', y. repeat split; [exact Hx'| |exact Heq].
           apply insert_keeps. exact Hy.
        -- left. exists x', x. repeat split; [exact Hx'| |].
           ++ exact (insert_done_In _ _ E).
           ++ rewrite key_equiv_sym. exact Heq.
        -- right. exact Hd.
Qed.

Lemma TS_insert_range_outcome (s : TransitSet) (xs : list BoxInTransit) :
  match TS.insert_range s xs with
  | Done s' =>
      range_collides (d_set s) xs = false
      /\ d_set s' = StdSet.insert_range (d_set s) xs
      /\ (d_sumload s' == d_sumload s + total_load xs)%Q
  | TboxError => range_collides (d_set s) xs = true
  end.
Proof.
  destruct (range_loop xs (d_sumload s) (length (d_set s))) as [Hn Hs].
  unfold TS.insert_range, TS.size. rewrite Hn.
  destruct (range_collides (d_set s) xs) eqn:Ec.
  - pose proof (insert_range_short _ _ Ec) as Hlt.
    destruct (Nat.eqb_spec (length (d_set s) + length xs)
                           (length (StdSet.insert_range (d_set s) xs)));
      simpl; [lia | reflexivity].
  - destruct (insert_range_clean _ _ Ec) as (Hl & _).
    rewrite Hl, Nat.eqb_refl. simpl. repeat split. exact Hs.
Qed.

(* ------------------------------------------------------------------ *)
(** *** Keys that compare like a uniform key *)

Lemma same_order_tail (e : BoxInTransit) (l : StdSet.t) (k k0 : BoxInTransit) :
  same_order_as (e :: l) k k0 -> same_order_as l k k0.
Proof. intros H z Hz. apply H. right. exact Hz. Qed.

Lemma same_order_find (l : StdSet.t) (k k0 : BoxInTransit) :
  same_order_as l k k0 -> StdSet.find l k = StdSet.find l k0.
Proof.
  induction l as [|e l IH]; intros H; simpl; [reflexivity|].
  destruct (H e (or_introl eq_refl)) as [-> ->].
  rewrite (IH (same_order_tail _ _ _ _ H)). reflexivity.
Qed.

Lemma same_order_erase (l : StdSet.t) (k k0 : BoxInTransit) :
  same_order_as l k k0 -> StdSet.erase l k = StdSet.erase l k0.
Proof.
  induction l as [|e l IH]; intros H; simpl; [reflexivity|].
  destruct (H e (or_introl eq_refl)) as [-> ->].
  rewrite (IH (same_order_tail _ _ _ _ H)). reflexivity.
Qed.

Lemma same_order_equiv (l : StdSet.t) (k k0 e : BoxInTransit) :
  same_order_as l k k0 -> In e l -> key_equiv k e = key_equiv k0 e.
Proof.
  intros H He. unfold key_equiv. destruct (H e He) as [-> ->]. reflexivity.
Qed.

(** On an ordered set, a key that compares like a uniform key finds the
    stored record equivalent to it, and finds nothing when no stored
    record is equivalent to it. *)
Lemma find_like_uniform (l : StdSet.t) (k k0 y : BoxInTransit) :
  ordered_set l -> uniform_load k0 -> same_order_as l k k0 ->
  In y l -> key_equiv k y = true -> StdSet.find l k = Some y.
Proof.
  intros Hl Hk0 Hso Hy Heq.
  rewrite (same_order_find l k k0 Hso).
  apply (find_complete l k0 y Hl Hk0 Hy).
  rewrite <- (same_order_equiv l k k0 y Hso Hy). exact Heq.
Qed.

Lemma find_no_equiv (l : StdSet.t) (k : BoxInTransit) :
  (forall e, In e l -> key_equiv k e = false) -> StdSet.find l k = None.
Proof.
  intros H. destruct (StdSet.find l k) as [y|] eqn:Ef; [|reflexivity].
  destruct (find_sound _ _ _ Ef) as [Hin Heq].
  rewrite (H y Hin) in Heq. discriminate.
Qed.

(** C5: a range insert never drops a duplicate silently.  For a set
    built from records that carry the cell count of their box and a
    range of such records: if an element of the range is equivalent to a
    stored element, or two elements of the range are equivalent to each
    other, the call ends in the fatal error; otherwise it completes,
    every element of the range is in the set beside the elements stored
    before and nothing else, the size grows by the length of the range
    and the cached sum by the total load of the range. *)
Theorem TransitSet_range_insert (s : TransitSet) (xs : list BoxInTransit) :
  reachable uniform_load any_key s -> Forall uniform_load xs ->
  (clash_with (d_set s) xs \/ dup_keys xs -> TS.insert_range s xs = TboxError)
  /\ (~ (clash_with (d_set s) xs \/ dup_keys xs) ->
      exists s', TS.insert_range s xs = Done s'
        /\ (forall x, In x xs -> In x (d_set s'))
        /\ (forall e, In e (d_set s) -> In e (d_set s'))
        /\ (forall e, In e (d_set s') -> In e xs \/ In e (d_set s))
        /\ TS.size s' = (TS.size s + length xs)%nat
        /\ (TS.getSumLoad s' == TS.getSumLoad s + total_load xs)%Q
        /\ sum_ok s').
Proof.
  intros R Hxs.
  pose proof (reachable_uniform_ordered s R) as Hl.
  pose proof (range_collides_iff xs (d_set s) Hl Hxs) as Hiff.
  pose proof (TS_insert_range_outcome s xs) as Ho.
  split.
  - intros Hc. apply Hiff in Hc.
    destruct (TS.insert_range s xs) as [s'|]; [|reflexivity].
    destruct Ho as (Ec & _). rewrite Ec in Hc. discriminate.
  - intros Hc.
    destruct (TS.insert_range s xs) as [s'|] eqn:E.
    + destruct Ho as (Ec & Hset & Hsum).
      destruct (insert_range_clean _ _ Ec) as (Hlen & _ & Hx & He).
      exists s'. split; [reflexivity|]. rewrite Hset.
      split; [exact Hx|]. split; [exact He|].
      split; [intros e; apply insert_range_In_inv|].
      split; [unfold TS.size; rewrite Hset; exact Hlen|].
      split; [exact Hsum|].
      exact (TS_insert_range_sum_ok s s' xs (reachable_uniform_sum_ok s R) E).
    + exfalso. apply Hc. apply Hiff. exact Ho.
Qed.

Lemma TransitSet_range_insert_witness :
  reachable uniform_load any_key set_u4
  /\ Forall uniform_load [rec_u2]
  /\ (exists s', TS.insert_range set_u4 [rec_u2] = Done s'
       /\ (forall x, In x [rec_u2] -> In x (d_set s'))
       /\ (forall e, In e (d_set set_u4) -> In e (d_set s'))
       /\ (forall e, In e (d_set s') -> In e [rec_u2] \/ In e (d_set set_u4))
       /\ TS.size s' = (TS.size set_u4 + length [rec_u2])%nat
       /\ (TS.getSumLoad s' == TS.getSumLoad set_u4 + total_load [rec_u2])%Q
       /\ sum_ok s')
  /\ Forall uniform_load [rec_u2; rec_u4]
  /\ TS.insert_range set_u4 [rec_u2; rec_u4] = TboxError.
Proof.
  assert (R : reachable uniform_load any_key set_u4).
  { unfold set_u4. apply reach_insert; [apply reach_new | reflexivity]. }
  assert (Hxs : Forall uniform_load [rec_u2]).
  { constructor; [reflexivity | constructor]. }
  assert (Hys : Forall uniform_load [rec_u2; rec_u4]).
  { repeat constructor. }
  split; [exact R|]. split; [exact Hxs|]. split; [|split; [exact Hys|]].
  - apply (proj2 (TransitSet_range_insert set_u4 [rec_u2] R Hxs)).
    intros [(x & y & [<- | []] & [<- | []] & Heq) | [(x' & [] & _) | []]].
    vm_compute in Heq. discriminate.
  - apply (proj1 (TransitSet_range_insert set_u4 [rec_u2; rec_u4] R Hys)).
    left. exists rec_u4, rec_u4.
    split; [right; left; reflexivity|]. split; [left; reflexivity | reflexivity].
Defined.

(** C9: for a set built from records that carry the cell count of their
    box and such a record [x]: when the set holds an element equivalent
    to [x], [insert(x)] returns false as second component and leaves the
    set and the cached sum as they were; so inserting [x] a second time
    returns false and leaves the state the first insert left. *)
Theorem TransitSet_insert_duplicate (s : TransitSet) (x : BoxInTransit) :
  reachable uniform_load any_key s -> uniform_load x ->
  (forall y, In y (d_set s) -> key_equiv x y = true ->
     snd (fst (TS.insert s x)) = false /\ snd (TS.insert s x) = s)
  /\ (snd (fst (TS.insert (snd (TS.insert s x)) x)) = false
      /\ snd (TS.insert (snd (TS.insert s x)) x) = snd (TS.insert s x)).
Proof.
  intros R Hx.
  assert (Hfound : forall (s0 : TransitSet) y,
             StdSet.find (d_set s0) x = Some y ->
             snd (fst (TS.insert s0 x)) = false /\ snd (TS.insert s0 x) = s0).
  { intros s0 y Ef.
    assert (E : snd (StdSet.insert (d_set s0) x) = false).
    { rewrite insert_snd_find, Ef. reflexivity. }
    unfold TS.insert. simpl. rewrite E, (insert_refused_same _ _ E).
    split; [reflexivity | destruct s0; reflexivity]. }
  split.
  - intros y Hin Heq.
    exact (Hfound s y (find_complete _ _ _ (reachable_uniform_ordered s R)
                                      Hx Hin Heq)).
  - destruct (find_after_insert (d_set s) x) as [y Ef].
    exact (Hfound (snd (TS.insert s x)) y Ef).
Qed.

Lemma TransitSet_insert_duplicate_witness :
  reachable uniform_load any_key set_u
  /\ uniform_load rec_u4
  /\ In rec_u4 (d_set set_u)
  /\ key_equiv rec_u4 rec_u4 = true
  /\ snd (fst (TS.insert set_u rec_u4)) = false
  /\ snd (TS.insert set_u rec_u4) = set_u.
Proof.
  assert (R : reachable uniform_load any_key set_u).
  { unfold set_u.
    apply reach_insert; [apply reach_insert; [apply reach_new|]|]; reflexivity. }
  assert (Hx : uniform_load rec_u4) by reflexivity.
  assert (Hin : In rec_u4 (d_set set_u)) by (left; reflexivity).
  split; [exact R|]. split; [exact Hx|]. split; [exact Hin|].
  split; [reflexivity|].
  exact (proj1 (TransitSet_insert_duplicate set_u rec_u4 R Hx) rec_u4 Hin eq_refl).
Defined.

(** C10: [erase(key)] subtracts the load of the key, not that of the
    element it removes.  For a set built from records that carry the
    cell count of their box, and a key [k] with a whole-number load that
    compares with the stored records the way a record [k0] carrying its
    cell count does ([k] itself, when it carries its cell count): if no
    stored element is equivalent to [k], the call returns 0 and changes
    nothing; if the stored element [y] is, the call returns 1 and takes
    one element out, the cached sum drops by the load of the key while
    the naive sum drops by the load of [y], and the cached sum is right
    afterwards iff the two loads are equal, which they are when the key
    carries the cell count of its box. *)
Theorem TransitSet_erase_key (s : TransitSet) (k k0 : BoxInTransit) :
  reachable uniform_load any_key s ->
  uniform_load k0 -> same_order_as (d_set s) k k0 -> whole_load k ->
  ((forall e, In e (d_set s) -> key_equiv k e = false) ->
   TS.erase s k = (O, s))
  /\ (forall y, In y (d_set s) -> key_equiv k y = true ->
        fst (TS.erase s k) = 1%nat
        /\ TS.size s = S (TS.size (snd (TS.erase s k)))
        /\ (forall e, In e (d_set (snd (TS.erase s k))) -> In e (d_set s))
        /\ TS.getSumLoad (snd (TS.erase s k))
           = (TS.getSumLoad s - d_boxload k)%Q
        /\ (computeLoad_set (snd (TS.erase s k))
            == computeLoad_set s - d_boxload y)%Q
        /\ (sum_ok (snd (TS.erase s k)) <-> (d_boxload k == d_boxload y)%Q)
        /\ (uniform_load k -> (d_boxload k == d_boxload y)%Q)).
Proof.
  intros R Hk0 Hso _.
  pose proof (reachable_uniform_ordered s R) as Hl.
  pose proof (reachable_uniform_sum_ok s R) as H.
  split.
  - intros Hno. exact (TS_erase_unchanged s k (find_no_equiv _ _ Hno)).
  - intros y Hin Heq.
    pose proof (find_like_uniform _ k k0 y Hl Hk0 Hso Hin Heq) as Ef.
    destruct (TS_erase_found s k y Ef) as (Hn & Hs & Ht).
    destruct (erase_some _ _ _ Ef) as (_ & _ & Hlen & _).
    split; [exact Hn|].
    split; [unfold TS.size, TS.erase; simpl; lia|].
    split; [intros e; unfold TS.erase; simpl; apply erase_In|].
    split; [exact Hs|].
    assert (Hc : (computeLoad_set (snd (TS.erase s k))
                  == computeLoad_set s - d_boxload y)%Q).
    { rewrite !computeLoad_set_total, Ht. ring. }
    split; [exact Hc|]. split.
    + unfold sum_ok at 1. unfold TS.getSumLoad. rewrite Hs, Hc.
      unfold sum_ok, TS.getSumLoad in H. rewrite H. split; intros E.
      * setoid_replace (d_boxload k)
          with (computeLoad_set s - (computeLoad_set s - d_boxload k))%Q by ring.
        rewrite E. ring.
      * rewrite E. reflexivity.
    + intros Hk. destruct Hl as [_ Hu]. rewrite Forall_forall in Hu.
      exact (proj1 (key_equiv_uniform k y Hk (Hu y Hin) Heq)).
Qed.

Lemma TransitSet_erase_key_witness :
  reachable uniform_load any_key set_u
  /\ uniform_load rec_u4
  /\ same_order_as (d_set set_u) rec_k3 rec_u4
  /\ whole_load rec_k3
  /\ In rec_u4 (d_set set_u)
  /\ key_equiv rec_k3 rec_u4 = true
  /\ fst (TS.erase set_u rec_k3) = 1%nat
  /\ (sum_ok (snd (TS.erase set_u rec_k3))
      <-> (d_boxload rec_k3 == d_boxload rec_u4)%Q).
Proof.
  assert (R : reachable uniform_load any_key set_u).
  { unfold set_u.
    apply reach_insert; [apply reach_insert; [apply reach_new|]|]; reflexivity. }
  assert (Hk0 : uniform_load rec_u4) by reflexivity.
  assert (Hso : same_order_as (d_set set_u) rec_k3 rec_u4).
  { intros e [<- | [<- | []]]; split; reflexivity. }
  assert (Hw : whole_load rec_k3) by (exists 3; reflexivity).
  assert (Hin : In rec_u4 (d_set set_u)) by (left; reflexivity).
  split; [exact R|]. split; [exact Hk0|]. split; [exact Hso|].
  split; [exact Hw|]. split; [exact Hin|]. split; [reflexivity|].
  destruct (proj2 (TransitSet_erase_key set_u rec_k3 rec_u4 R Hk0 Hso Hw)
                  rec_u4 Hin eq_refl)
    as (Hn & _ & _ & _ & _ & Hiff & _).
  split; [exact Hn | exact Hiff].
Defined.

(* ================================================================== *)
(** ** SubtreeData: derived quantities *)
(* ================================================================== *)

(** C8: surplus, deficit, excess and margin are the stated differences of
    the current, ideal and upper-limit loads, likewise for the effective
    variants; hence deficit = -surplus, margin = -excess,
    effDeficit = -effSurplus and effMargin = -effExcess. *)
Theorem SubtreeData_derived (s : SubtreeData) :
  (surplus s = (d_subtree_load_current s - d_subtree_load_ideal s)%Q
   /\ deficit s = (d_subtree_load_ideal s - d_subtree_load_current s)%Q
   /\ excess s = (d_subtree_load_current s - d_subtree_load_upperlimit s)%Q
   /\ margin s = (d_subtree_load_upperlimit s - d_subtree_load_current s)%Q)
  /\ (effSurplus s = (d_eff_load_current s - d_eff_load_ideal s)%Q
      /\ effDeficit s = (d_eff_load_ideal s - d_eff_load_current s)%Q
      /\ effExcess s = (d_eff_load_current s - d_eff_load_upperlimit s)%Q
      /\ effMargin s = (d_eff_load_upperlimit s - d_eff_load_current s)%Q)
  /\ ((deficit s == - surplus s)%Q
      /\ (margin s == - excess s)%Q
      /\ (effDeficit s == - effSurplus s)%Q
      /\ (effMargin s == - effExcess s)%Q).
Proof.
  split; [repeat split|]. split; [repeat split|].
  unfold deficit, surplus, margin, excess,
         effDeficit, effSurplus, effMargin, effExcess.
  repeat split; ring.
Qed.

(* ================================================================== *)
(** ** The load model: loads are cell counts *)
(* ================================================================== *)

Lemma In_range (x lo : Z) (n : nat) :
  In x (range lo n) <-> lo <= x < lo + Z.of_nat n.
Proof.
  revert lo. induction n as [|n IH]; intros lo; simpl range.
  - simpl. lia.
  - simpl In. rewrite IH. lia.
Qed.

Lemma NoDup_range (lo : Z) (n : nat) : NoDup (range lo n).
Proof.
  revert lo. induction n as [|n IH]; intros lo; simpl; constructor.
  - rewrite In_range. lia.
  - apply IH.
Qed.

Lemma length_range (lo : Z) (n : nat) : length (range lo n) = n.
Proof.
  revert lo. induction n as [|n IH]; intros lo; simpl; [|rewrite IH]; reflexivity.
Qed.

(** Prefixing every index of [C] with each coordinate of [R]. *)
Lemma In_prefixed (R : list Z) (C : list Index) (p : Index) :
  In p (flat_map (fun x => map (cons x) C) R)
  <-> exists x q, p = x :: q /\ In x R /\ In q C.
Proof.
  rewrite in_flat_map. split.
  - intros (x & Hx & Hp). apply in_map_iff in Hp.
    destruct Hp as (q & <- & Hq). exists x, q. auto.
  - intros (x & q & -> & Hx & Hq). exists x. split; [exact Hx|].
    apply in_map_iff. exists q. auto.
Qed.

Lemma length_prefixed (R : list Z) (C : list Index) :
  length (flat_map (fun x => map (cons x) C) R) = (length R * length C)%nat.
Proof.
  induction R as [|x R IH]; simpl; [reflexivity|].
  rewrite length_app, length_map, IH. reflexivity.
Qed.

Lemma NoDup_prefixed (R : list Z) (C : list Index) :
  NoDup R -> NoDup C -> NoDup (flat_map (fun x => map (cons x) C) R).
Proof.
  intros HR HC. induction HR as [|x R Hx HR IH]; simpl; [constructor|].
  apply NoDup_app.
  - clear -HC. induction HC as [|q C Hq HC IH]; simpl; constructor.
    + rewrite in_map_iff. intros (q' & E & Hq'). injection E as ->.
      contradiction.
    + exact IH.
  - exact IH.
  - intros p Hp Hp'. apply in_map_iff in Hp. destruct Hp as (q & <- & _).
    apply In_prefixed in Hp'. destruct Hp' as (x' & q' & E & Hx' & _).
    injection E as -> _. contradiction.
Qed.

(** [cells] lists exactly the indices the box contains, each once. *)
Lemma In_cells_of (ax : list (Z * Z)) (p : Index) :
  In p (cells_of ax) <-> inside ax p = true.
Proof.
  revert p. induction ax as [|[lo hi] ax IH]; intros p; simpl cells_of.
  - destruct p as [|x p]; simpl.
    + split; [reflexivity | intros _; left; reflexivity].
    + split; [intros [H | []]; discriminate | discriminate].
  - rewrite In_prefixed. split.
    + intros (x & q & -> & Hx & Hq). simpl.
      apply In_range in Hx. apply IH in Hq. rewrite Hq.
      rewrite !andb_true_iff, !Z.leb_le. lia.
    + destruct p as [|x q]; simpl; [discriminate|].
      rewrite !andb_true_iff, !Z.leb_le. intros [[H1 H2] H3].
      exists x, q. split; [reflexivity|]. split.
      * apply In_range. lia.
      * apply IH. exact H3.
Qed.

Lemma NoDup_cells_of (ax : list (Z * Z)) : NoDup (cells_of ax).
Proof.
  induction ax as [|[lo hi] ax IH]; simpl.
  - constructor; [intros [] | constructor].
  - apply NoDup_prefixed; [apply NoDup_range | exact IH].
Qed.

Lemma cells_spec (b : Box) :
  NoDup (cells b) /\ forall p, In p (cells b) <-> contains b p = true.
Proof.
  split; [apply NoDup_cells_of | intros p; apply In_cells_of].
Qed.

Lemma length_cells_of (ax : list (Z * Z)) :
  Z.of_nat (length (cells_of ax)) =
  if existsb (fun lh => snd lh <? fst lh) ax then 0 else volume ax.
Proof.
  induction ax as [|[lo hi] ax IH]; simpl cells_of; [reflexivity|].
  rewrite length_prefixed, length_range, Nat2Z.inj_mul, IH.
  simpl existsb. simpl volume.
  destruct (Z.ltb_spec hi lo) as [Hlt | Hge]; simpl.
  - replace (Z.to_nat (hi - lo + 1)) with O by lia. reflexivity.
  - rewrite Z2Nat.id by lia.
    destruct (existsb (fun lh => snd lh <? fst lh) ax); lia.
Qed.

Lemma size_cell_count (b : Box) : size b = cell_count b.
Proof.
  unfold size, cell_count, cells, empty. rewrite length_cells_of. reflexivity.
Qed.

(** In equal dimension, the intersection contains the common indices. *)
Lemma inside_intersect (a b : list (Z * Z)) (p : Index) :
  length a = length b ->
  inside (intersect_axes a b) p = inside a p && inside b p.
Proof.
  revert b p. induction a as [|[alo ahi] a IH]; intros [|[blo bhi] b] p Hlen;
    simpl in Hlen; try discriminate.
  - destruct p; reflexivity.
  - destruct p as [|x p]; [reflexivity|].
    unfold intersect_axes. simpl. fold (intersect_axes a b).
    rewrite (IH b p) by lia.
    destruct (inside a p), (inside b p); rewrite ?andb_true_r, ?andb_false_r;
      try reflexivity.
    apply eq_true_iff_eq.
    rewrite !andb_true_iff, !Z.leb_le. lia.
Qed.

Lemma common_cells_length (a b : Box) :
  getDim a = getDim b ->
  cell_count (intersect a b) = common_cell_count a b.
Proof.
  intros Hd. unfold cell_count, common_cell_count. f_equal.
  apply Permutation_length.
  apply NoDup_Permutation.
  - apply NoDup_cells_of.
  - apply NoDup_filter, NoDup_cells_of.
  - intros p. rewrite filter_In. unfold cells, contains. rewrite !In_cells_of.
    unfold intersect. simpl. rewrite (inside_intersect _ _ _ Hd).
    apply andb_true_iff.
Qed.

(** C7: [computeLoad(box)] is the number of cells of [box], and
    [computeLoad(box, restriction)] is the number of cells of the
    intersection, which for boxes of one dimension is the number of
    cells of [box] lying in [restriction]. *)
Theorem computeLoad_cell_count (box restriction : Box) :
  computeLoad box = inject_Z (cell_count box)
  /\ computeLoad_in box restriction
     = inject_Z (cell_count (intersect box restriction))
  /\ (getDim box = getDim restriction ->
      (forall p, contains (intersect box restriction) p
                 = contains box p && contains restriction p)
      /\ computeLoad_in box restriction
         = inject_Z (common_cell_count box restriction)).
Proof.
  unfold computeLoad, computeLoad_in. rewrite !size_cell_count.
  split; [reflexivity|]. split; [reflexivity|].
  intros Hd. split.
  - intros p. apply inside_intersect. exact Hd.
  - rewrite (common_cells_length _ _ Hd). reflexivity.
Qed.

Lemma computeLoad_cell_count_witness :
  getDim box_3x4 = getDim box_shift
  /\ computeLoad box_3x4 = inject_Z 12
  /\ computeLoad_in box_3x4 box_shift = inject_Z 4
  /\ computeLoad_in box_3x4 box_shift
     = inject_Z (common_cell_count box_3x4 box_shift).
Proof.
  split; [reflexivity|]. split; [reflexivity|]. split; [reflexivity|].
  exact (proj2 (proj2 (proj2 (computeLoad_cell_count box_3x4 box_shift))
                      eq_refl)).
Defined.

(* ================================================================== *)
(** ** Bursting a box around a solid *)
(* ================================================================== *)

Lemma inside_length (ax : list (Z * Z)) (p : Index) :
  inside ax p = true -> length ax = length p.
Proof.
  revert p. induction ax as [|[lo hi] ax IH]; intros [|x p]; simpl;
    try discriminate; [reflexivity|].
  rewrite !andb_true_iff. intros [_ H]. rewrite (IH p H). reflexivity.
Qed.

Lemma inside_app (a1 a2 : list (Z * Z)) (p1 p2 : Index) :
  length p1 = length a1 ->
  inside (a1 ++ a2) (p1 ++ p2) = inside a1 p1 && inside a2 p2.
Proof.
  revert p1. induction a1 as [|[lo hi] a1 IH]; intros [|x p1] Hlen;
    simpl in Hlen; try discriminate; simpl.
  - reflexivity.
  - rewrite (IH p1) by lia. rewrite !andb_assoc. reflexivity.
Qed.

Lemma within_inside (outer inner : list (Z * Z)) (p : Index) :
  axes_within outer inner = true ->
  inside inner p = true -> inside outer p = true.
Proof.
  revert inner p.
  induction outer as [|[blo bhi] outer IH]; intros [|[slo shi] inner] [|x p];
    simpl; try discriminate; try reflexivity.
  rewrite !andb_true_iff, !Z.leb_le.
  intros [Hb Hw] [Hx Hi]. split; [lia|]. exact (IH inner p Hw Hi).
Qed.

Lemma within_length (outer inner : list (Z * Z)) :
  axes_within outer inner = true -> length outer = length inner.
Proof.
  revert inner.
  induction outer as [|[blo bhi] outer IH]; intros [|[slo shi] inner];
    simpl; try discriminate; [reflexivity|].
  rewrite !andb_true_iff. intros [_ Hw]. rewrite (IH inner Hw). reflexivity.
Qed.

Lemma hits_app (l1 l2 : list (list (Z * Z))) (p : Index) :
  hits (l1 ++ l2) p = (hits l1 p + hits l2 p)%nat.
Proof. unfold hits. rewrite filter_app, length_app. reflexivity. Qed.

Lemma hits_guarded (c : bool) (ax : list (Z * Z)) (p : Index) :
  hits (if c then [ax] else []) p = if c && inside ax p then 1%nat else O.
Proof.
  unfold hits. destruct c; simpl; [|reflexivity].
  destruct (inside ax p); reflexivity.
Qed.

Lemma burst_axes_length (cutme solid done ax : list (Z * Z)) :
  In ax (burst_axes done cutme solid) ->
  length ax = (length done + length cutme)%nat.
Proof.
  revert solid done.
  induction cutme as [|[blo bhi] cutme IH]; intros [|[slo shi] solid] done;
    simpl; try contradiction.
  rewrite !in_app_iff. intros [H | [H | H]].
  - destruct (blo <? slo); simpl in H; [|contradiction].
    destruct H as [<- | []]. rewrite length_app. reflexivity.
  - destruct (shi <? bhi); simpl in H; [|contradiction].
    destruct H as [<- | []]. rewrite length_app. reflexivity.
  - rewrite (IH _ _ H), length_app. simpl. lia.
Qed.

Lemma hits_wrong_length (pieces : list (list (Z * Z))) (p : Index) :
  (forall ax, In ax pieces -> length ax <> length p) -> hits pieces p = O.
Proof.
  unfold hits. induction pieces as [|ax pieces IH]; intros H; simpl;
    [reflexivity|].
  destruct (inside ax p) eqn:E.
  - apply inside_length in E. exfalso. apply (H ax); [left; reflexivity|exact E].
  - apply IH. intros ax' Hin. apply H. right. exact Hin.
Qed.

Lemma burst_axes_count (cutme solid done : list (Z * Z)) (q p : Index) :
  axes_within cutme solid = true -> length q = length done ->
  hits (burst_axes done cutme solid) (q ++ p) =
  if inside done q && inside cutme p && negb (inside solid p)
  then 1%nat else O.
Proof.
  revert solid done q p.
  induction cutme as [|[blo bhi] cutme IH];
    intros [|[slo shi] solid] done q p; simpl axes_within;
    try discriminate.
  - intros _ _. simpl. destruct (inside done q), p; reflexivity.
  - rewrite !andb_true_iff, !Z.leb_le. intros [Hb Hw] Hq.
    destruct p as [|x p].
    + replace (inside ((blo, bhi) :: cutme) []) with false by reflexivity.
      rewrite andb_false_r. simpl andb. cbv iota.
      apply hits_wrong_length. intros ax Hin.
      apply burst_axes_length in Hin. rewrite Hin, app_nil_r. simpl. lia.
    + simpl burst_axes. rewrite !hits_app, !hits_guarded.
      rewrite !(inside_app done _ q (x :: p)) by exact Hq.
      replace (q ++ x :: p) with ((q ++ [x]) ++ p)
        by (rewrite <- app_assoc; reflexivity).
      rewrite (IH solid (done ++ [(slo, shi)]) (q ++ [x]) p Hw)
        by (rewrite !length_app; simpl; lia).
      rewrite (inside_app done [(slo, shi)] q [x]) by exact Hq.
      simpl inside.
      destruct (inside done q), (inside cutme p), (inside solid p);
        rewrite ?andb_true_r, ?andb_false_r; simpl;
        destruct (Z.ltb_spec blo slo), (Z.ltb_spec shi bhi),
                 (Z.leb_spec blo x), (Z.leb_spec x (slo - 1)),
                 (Z.leb_spec (shi + 1) x), (Z.leb_spec x bhi),
                 (Z.leb_spec slo x), (Z.leb_spec x shi);
        simpl; try reflexivity; exfalso; lia.
Qed.

Lemma burst_axes_number (cutme solid done : list (Z * Z)) :
  (length (burst_axes done cutme solid) <= 2 * length cutme)%nat.
Proof.
  revert solid done.
  induction cutme as [|[blo bhi] cutme IH]; intros [|[slo shi] solid] done;
    simpl; try lia.
  rewrite !length_app. specialize (IH solid (done ++ [(slo, shi)])).
  destruct (blo <? slo), (shi <? bhi); simpl; lia.
Qed.

Lemma covering_map (f : list (Z * Z) -> Box) (pieces : list (list (Z * Z)))
      (p : Index) :
  (forall ax, axes (f ax) = ax) ->
  covering (map f pieces) p = hits pieces p.
Proof.
  intros Hf. unfold covering, hits, contains.
  induction pieces as [|ax pieces IH]; simpl; [reflexivity|].
  rewrite Hf. destruct (inside ax p); simpl; rewrite IH; reflexivity.
Qed.

Lemma covering_app (l1 l2 : list Box) (p : Index) :
  covering (l1 ++ l2) p = (covering l1 p + covering l2 p)%nat.
Proof. unfold covering. rewrite filter_app, length_app. reflexivity. Qed.

Lemma covering_cons (b : Box) (l : list Box) (p : Index) :
  covering (b :: l) p
  = ((if contains b p then 1 else 0) + covering l p)%nat.
Proof. unfold covering. simpl. destruct (contains b p); reflexivity. Qed.

Lemma covering_pos (l : list Box) (b : Box) (p : Index) :
  In b l -> contains b p = true -> (1 <= covering l p)%nat.
Proof.
  induction l as [|b0 l IH]; [contradiction|].
  rewrite covering_cons. intros [-> | Hin] Hc.
  - rewrite Hc. lia.
  - specialize (IH Hin Hc). lia.
Qed.

(** Boxes of which no index lies in two are pairwise disjoint. *)
Lemma covering_disjoint (l : list Box) :
  (forall p, (covering l p <= 1)%nat) -> ForallOrdPairs disjoint l.
Proof.
  induction l as [|b l IH]; intros H; constructor.
  - apply Forall_forall. intros b' Hin p [Hb Hb'].
    specialize (H p). rewrite covering_cons, Hb in H.
    pose proof (covering_pos l b' p Hin Hb'). lia.
  - apply IH. intros p. specialize (H p). rewrite covering_cons in H. lia.
Qed.

Lemma burstBox_covering (bursty solid : Box) (p : Index) :
  contains_box bursty solid = true ->
  covering (solid :: burstBox bursty solid) p
  = if contains bursty p then 1%nat else O.
Proof.
  unfold contains_box. intros Hw.
  rewrite covering_cons. unfold burstBox.
  rewrite covering_map by reflexivity.
  pose proof (burst_axes_count _ _ [] [] p Hw eq_refl) as Hc.
  change ([] ++ p) with p in Hc. rewrite Hc. simpl.
  unfold contains.
  pose proof (within_inside _ _ p Hw) as Hin.
  destruct (inside (axes solid) p); simpl.
  - rewrite (Hin eq_refl). rewrite andb_false_r. reflexivity.
  - rewrite andb_true_r. destruct (inside (axes bursty) p); reflexivity.
Qed.

(** C6: for [solid] contained in [bursty], [burstBox] yields at most 2*d
    boxes; together with [solid] they cover [bursty] exactly: every
    index of [bursty] lies in exactly one of them, no index outside
    [bursty] lies in any; and they are pairwise disjoint. *)
Theorem burstBox_complete (bursty solid : Box) :
  contains_box bursty solid = true ->
  (length (burstBox bursty solid) <= 2 * getDim bursty)%nat
  /\ (forall p, covering (solid :: burstBox bursty solid) p
                = if contains bursty p then 1%nat else O)
  /\ ForallOrdPairs disjoint (solid :: burstBox bursty solid).
Proof.
  intros Hw. split; [|split].
  - unfold burstBox, getDim. rewrite length_map. apply burst_axes_number.
  - intros p. exact (burstBox_covering bursty solid p Hw).
  - apply covering_disjoint. intros p.
    rewrite (burstBox_covering bursty solid p Hw).
    destruct (contains bursty p); lia.
Qed.

Lemma burstBox_complete_witness :
  contains_box box_8x8 box_core = true
  /\ (length (burstBox box_8x8 box_core) <= 2 * getDim box_8x8)%nat
  /\ (forall p, covering (box_core :: burstBox box_8x8 box_core) p
                = if contains box_8x8 p then 1%nat else O)
  /\ ForallOrdPairs disjoint (box_core :: burstBox box_8x8 box_core).
Proof.
  split; [reflexivity|].
  exact (burstBox_complete box_8x8 box_core eq_refl).
Defined.

(* ================================================================== *)
(** ** Breaking a load off a box *)
(* ================================================================== *)

Lemma lowest_penalty_In (f : Break -> Q) (l : list Break) (c : Break) :
  Breaker.lowest_penalty f l = Some c -> In c l.
Proof.
  revert c. induction l as [|c0 l IH]; intros c; simpl; [discriminate|].
  destruct (Breaker.lowest_penalty f l) as [c'|].
  - destruct (Qle_bool (f c0) (f c')); intros E; injection E as <-.
    + left. reflexivity.
    + right. apply IH. reflexivity.
  - intros E. injection E as <-. left. reflexivity.
Qed.

Lemma lowest_penalty_least (f : Break -> Q) (l : list Break) (c : Break) :
  Breaker.lowest_penalty f l = Some c ->
  forall c', In c' l -> (f c <= f c')%Q.
Proof.
  revert c. induction l as [|c0 l IH]; intros c; simpl; [discriminate|].
  destruct (Breaker.lowest_penalty f l) as [c1|] eqn:E1.
  - destruct (Qle_bool (f c0) (f c1)) eqn:Ele; intros E; injection E as <-;
      intros c' [<- | Hin].
    + apply Qle_refl.
    + apply Qle_bool_iff in Ele.
      exact (Qle_trans _ _ _ Ele (IH c1 eq_refl c' Hin)).
    + apply Qlt_le_weak, Qnot_le_lt. intros Hle.
      apply Qle_bool_iff in Hle. congruence.
    + exact (IH c1 eq_refl c' Hin).
  - intros E. injection E as <-. intros c' [<- | Hin].
    + apply Qle_refl.
    + destruct l; [contradiction|]. simpl in E1.
      destruct (Breaker.lowest_penalty f l); [|discriminate].
      destruct (Qle_bool _ _); discriminate.
Qed.

Lemma best_in_band_spec (pp : PartitioningParams)
      (ideal low high : LoadType) (l : list Break) (c : Break) :
  Breaker.best_in_band pp ideal low high l = Some c ->
  In c l /\ (low <= Breaker.break_load c <= high)%Q.
Proof.
  unfold Breaker.best_in_band. intros E.
  apply lowest_penalty_In, filter_In in E. destruct E as [Hin Hb].
  split; [exact Hin|].
  unfold Breaker.in_band in Hb. apply andb_true_iff in Hb.
  rewrite !Qle_bool_iff in Hb. exact Hb.
Qed.

Lemma insert_by_In (key : Z -> Z) (c x : Z) (l : list Z) :
  In x (Breaker.insert_by key c l) -> x = c \/ In x l.
Proof.
  induction l as [|c' l IH]; simpl.
  - intros [<- | []]. left. reflexivity.
  - destruct (key c <=? key c'); simpl.
    + intros [<- | H]; [left; reflexivity | right; exact H].
    + intros [<- | H]; [right; left; reflexivity|].
      destruct (IH H) as [-> | H']; [left; reflexivity | right; right; exact H'].
Qed.

Lemma sort_by_In (key : Z -> Z) (x : Z) (l : list Z) :
  In x (Breaker.sort_by key l) -> In x l.
Proof.
  unfold Breaker.sort_by. induction l as [|c l IH]; simpl; [trivial|].
  intros H. apply insert_by_In in H.
  destruct H as [-> | H]; [left; reflexivity | right; exact (IH H)].
Qed.

Lemma cut_planes_bounds (lo hi c : Z) :
  In c (Breaker.cut_planes lo hi) -> lo < c <= hi.
Proof.
  unfold Breaker.cut_planes. intros H.
  apply sort_by_In, In_range in H. lia.
Qed.

(** A plane strictly inside an extent splits the box in two slabs. *)
Lemma slab_split (pre post : list (Z * Z)) (lo hi c : Z) (p : Index) :
  lo < c <= hi ->
  Nat.add (if inside (pre ++ (lo, c - 1) :: post) p then 1%nat else O)
          (if inside (pre ++ (c, hi) :: post) p then 1%nat else O)
  = if inside (pre ++ (lo, hi) :: post) p then 1%nat else O.
Proof.
  intros Hc. revert p.
  induction pre as [|[l h] pre IH]; intros [|x p]; simpl; try reflexivity.
  - destruct (inside post p); rewrite ?andb_true_r, ?andb_false_r;
      [|reflexivity].
    destruct (Z.leb_spec lo x), (Z.leb_spec x (c - 1)),
             (Z.leb_spec c x), (Z.leb_spec x hi);
      simpl; try reflexivity; exfalso; lia.
  - destruct ((l <=? x) && (x <=? h)); simpl; [apply IH | reflexivity].
Qed.

Lemma planar_break_tiles (box : Box) (ideal : LoadType)
      (pre post : list (Z * Z)) (lo hi c : Z) (p : Index) :
  lo < c <= hi ->
  covering (cand_breakoff (Breaker.planar_break box ideal pre post lo hi c)
            ++ cand_leftover (Breaker.planar_break box ideal pre post lo hi c)) p
  = if inside (pre ++ (lo, hi) :: post) p then 1%nat else O.
Proof.
  intros Hc. rewrite <- (slab_split pre post lo hi c p Hc).
  unfold Breaker.planar_break.
  destruct (Qle_bool _ _); simpl; rewrite !covering_cons;
    unfold covering, contains; simpl; lia.
Qed.

Lemma planar_breaks_tile (box : Box) (ideal : LoadType)
      (bad_cuts : list (list bool)) (ax pre : list (Z * Z)) (d : nat)
      (b : Break) (p : Index) :
  In b (Breaker.planar_breaks box ideal bad_cuts d pre ax) ->
  covering (cand_breakoff b ++ cand_leftover b) p
  = if inside (pre ++ ax) p then 1%nat else O.
Proof.
  revert pre d. induction ax as [|[lo hi] post IH]; intros pre d; simpl;
    [contradiction|].
  rewrite in_app_iff. intros [H | H].
  - apply in_map_iff in H. destruct H as (c & <- & Hc).
    apply filter_In in Hc. destruct Hc as [Hc _].
    apply planar_break_tiles. exact (cut_planes_bounds lo hi c Hc).
  - rewrite (IH _ _ H), <- app_assoc. reflexivity.
Qed.

Lemma cubic_breaks_tile (pp : PartitioningParams) (box : Box)
      (ideal : LoadType) (bad_cuts : list (list bool))
      (b : Break) (p : Index) :
  In b (Breaker.cubic_breaks pp box ideal bad_cuts) ->
  covering (cand_breakoff b ++ cand_leftover b) p
  = if contains box p then 1%nat else O.
Proof.
  unfold Breaker.cubic_breaks. rewrite in_flat_map.
  intros (corner & _ & H).
  destruct (contains_box box _ && _) eqn:E; [|contradiction].
  destruct H as [<- | []]. apply andb_true_iff in E. destruct E as [Hw _].
  simpl. exact (burstBox_covering box _ p Hw).
Qed.

(** The break that [breakOffLoad] accepts is one of the candidates in
    the band. *)
Lemma breakOffLoad_accepts (pp : PartitioningParams) (box : Box)
      (ideal low high : LoadType) :
  success (breakOffLoad pp box ideal low high) = true ->
  exists b,
    breakOffLoad pp box ideal low high = Breaker.result_of b
    /\ (In b (Breaker.planar_breaks box ideal (findBadCuts pp box) 0 [] (axes box))
        \/ In b (Breaker.cubic_breaks pp box ideal (findBadCuts pp box)))
    /\ (low <= Breaker.break_load b <= high)%Q.
Proof.
  unfold breakOffLoad, breakOffLoad_planar, breakOffLoad_cubic.
  destruct (Breaker.best_in_band pp ideal low high
              (Breaker.planar_breaks _ _ _ _ _ _)) as [bp|] eqn:Ep;
    destruct (Breaker.best_in_band pp ideal low high
                (Breaker.cubic_breaks _ _ _ _)) as [bc|] eqn:Ec;
    try (apply best_in_band_spec in Ep; destruct Ep as [Hp Hpb]);
    try (apply best_in_band_spec in Ec; destruct Ec as [Hc Hcb]).
  - destruct (Qle_bool _ _); intros _;
      [exists bp | exists bc]; repeat split; auto; tauto.
  - intros _. exists bp. repeat split; auto; tauto.
  - intros _. exists bc. repeat split; auto; tauto.
  - discriminate.
Qed.

(** C3: whenever [breakOffLoad] returns true, the load broken off lies
    in [low_load, high_load] and is the load of the boxes broken off, and
    the boxes of [breakoff] and [leftover] together tile [box]: every
    cell of [box] lies in exactly one of them, and none of them has a
    cell outside [box]. *)
Theorem breakOffLoad_contract (pp : PartitioningParams) (box : Box)
      (ideal_load low_load high_load : LoadType) :
  success (breakOffLoad pp box ideal_load low_load high_load) = true ->
  let r := breakOffLoad pp box ideal_load low_load high_load in
  (low_load <= brk_load r <= high_load)%Q
  /\ brk_load r = Breaker.load_of (breakoff r)
  /\ (forall p, covering (breakoff r ++ leftover r) p
                = if contains box p then 1%nat else O).
Proof.
  intros Hs. destruct (breakOffLoad_accepts _ _ _ _ _ Hs) as (b & -> & Hin & Hb).
  simpl. split; [exact Hb|]. split; [reflexivity|].
  intros p. destruct Hin as [Hin | Hin].
  - exact (planar_breaks_tile _ _ _ _ [] _ b p Hin).
  - exact (cubic_breaks_tile _ _ _ _ b p Hin).
Qed.

Lemma breakOffLoad_contract_witness :
  success (breakOffLoad pp_example box_8x8 32 24 40) = true
  /\ let r := breakOffLoad pp_example box_8x8 32 24 40 in
     (24 <= brk_load r <= 40)%Q
     /\ brk_load r = Breaker.load_of (breakoff r)
     /\ (forall p, covering (breakoff r ++ leftover r) p
                   = if contains box_8x8 p then 1%nat else O).
Proof.
  split; [reflexivity|].
  exact (breakOffLoad_contract pp_example box_8x8 32 24 40 eq_refl).
Defined.

(** The spec's bad-cut scenario: an 8x8 box whose plane 4 is bad, ideal
    load 32, band [24, 40].  The cut falls on plane 3 and breaks off 24
    cells. *)
Example breakOffLoad_bad_cut_scenario :
  breakOffLoad pp_example box_8x8 32 24 40
  = mkBreakResult true
      [mkBox [(0, 2); (0, 7)] 0 (mkBoxId 0 0)]
      [mkBox [(3, 7); (0, 7)] 0 (mkBoxId 0 0)]
      24.
Proof. vm_compute. reflexivity. Qed.

(** A corner chop: no planar cut of the 8x8 box yields 30 cells, the
    5x6 corner piece does, and bursting leaves two boxes. *)
Example breakOffLoad_corner_scenario :
  breakOffLoad pp_corner box_8x8 30 29 31
  = mkBreakResult true
      [mkBox [(0, 4); (0, 5)] 0 (mkBoxId 0 0)]
      [mkBox [(5, 7); (0, 7)] 0 (mkBoxId 0 0);
       mkBox [(0, 4); (6, 7)] 0 (mkBoxId 0 0)]
      30.
Proof. vm_compute. reflexivity. Qed.

(* ================================================================== *)
(** ** Further properties of the ordering and of TransitSet *)
(* ================================================================== *)

(** X1: [BoxInTransitMoreLoad] is irreflexive and asymmetric on all
    records; on records that carry the cell count of their box it is
    transitive, and two such records are equivalent keys exactly when
    they have the same load and the same box id. *)
Theorem MoreLoad_strict_order (a b c : BoxInTransit) :
  BoxInTransitMoreLoad a a = false
  /\ (BoxInTransitMoreLoad a b = true -> BoxInTransitMoreLoad b a = false)
  /\ (uniform_load a -> uniform_load b -> uniform_load c ->
      BoxInTransitMoreLoad a b = true -> BoxInTransitMoreLoad b c = true ->
      BoxInTransitMoreLoad a c = true)
  /\ (uniform_load a -> uniform_load b ->
      (key_equiv a b = true <->
       (d_boxload a == d_boxload b)%Q /\ box_id (d_box a) = box_id (d_box b))).
Proof.
  split; [apply MoreLoad_irrefl|]. split; [apply MoreLoad_asym|].
  split; [apply MoreLoad_uniform_trans|].
  intros Ha Hb. split; [apply key_equiv_uniform; assumption|].
  intros [Hl Hi]. apply key_equiv_iff.
  rewrite !MoreLoad_false_iff.
  rewrite (MoreLoad_uniform_key a b Ha Hb), (MoreLoad_uniform_key b a Hb Ha).
  apply (uniform_size_eq a b Ha Hb) in Hl. unfold getBox in Hl.
  rewrite Hi. lia.
Qed.

Lemma MoreLoad_cycle :
  BoxInTransitMoreLoad cyc_a cyc_b = true
  /\ BoxInTransitMoreLoad cyc_b cyc_c = true
  /\ BoxInTransitMoreLoad cyc_c cyc_a = true.
Proof. repeat split. Qed.

(** X2: on arbitrary records the comparator is not transitive, hence no
    strict weak ordering: three records whose loads differ from their
    cell counts are ordered in a circle. *)
Theorem MoreLoad_not_transitive :
  ~ (forall a b c : BoxInTransit,
       BoxInTransitMoreLoad a b = true -> BoxInTransitMoreLoad b c = true ->
       BoxInTransitMoreLoad a c = true).
Proof.
  intros H. destruct MoreLoad_cycle as (Hab & Hbc & Hca).
  pose proof (H cyc_a cyc_b cyc_c Hab Hbc) as Hac.
  rewrite (MoreLoad_asym _ _ Hca) in Hac. discriminate.
Qed.

Lemma insert_range_keeps (xs : list BoxInTransit) (l : StdSet.t)
      (e : BoxInTransit) :
  In e l -> In e (StdSet.insert_range l xs).
Proof.
  revert l. induction xs as [|x xs IH]; intros l H; [exact H|].
  rewrite insert_range_cons. apply IH. apply insert_keeps. exact H.
Qed.

Lemma insert_range_has_equiv (xs : list BoxInTransit) (l : StdSet.t)
      (x : BoxInTransit) :
  In x xs ->
  exists y, In y (StdSet.insert_range l xs) /\ key_equiv x y = true.
Proof.
  revert l. induction xs as [|x0 xs IH]; intros l; [intros []|].
  rewrite insert_range_cons. intros [-> | H].
  - destruct (find_after_insert l x) as [y Ef].
    destruct (find_sound _ _ _ Ef) as [Hin Heq].
    exists y. split; [apply insert_range_keeps; exact Hin | exact Heq].
  - apply IH. exact H.
Qed.

(** X3: the range constructor on records that carry the cell count of
    their box keeps one record per key and drops the rest without an
    error: the set is in comparator order, made of range elements,
    every range element has an equivalent record in it, its size is
    at most the length of the range and equal to it when no two range
    elements are equivalent; and its cached sum is the naive sum over
    what it kept. *)
Theorem TransitSet_of_range_sum (xs : list BoxInTransit) :
  Forall uniform_load xs ->
  sum_ok (TS.of_range xs)
  /\ ordered_set (d_set (TS.of_range xs))
  /\ (forall e, In e (d_set (TS.of_range xs)) -> In e xs)
  /\ (forall x, In x xs ->
        exists y, In y (d_set (TS.of_range xs)) /\ key_equiv x y = true)
  /\ (TS.size (TS.of_range xs) <= length xs)%nat
  /\ (~ dup_keys xs -> TS.size (TS.of_range xs) = length xs).
Proof.
  intros Hxs.
  assert (Hnil : ordered_set []) by (split; constructor).
  split; [apply TS_of_range_sum_ok|].
  split; [exact (insert_range_ordered xs [] Hnil Hxs)|].
  split.
  { intros e He. simpl in He. apply insert_range_In_inv in He.
    destruct He as [He | []]. exact He. }
  split; [intros x; apply insert_range_has_equiv|].
  unfold TS.size, TS.of_range. simpl. split.
  - pose proof (insert_range_length_le xs []) as H. simpl in H. lia.
  - intros Hd.
    assert (Ec : range_collides [] xs = false).
    { destruct (range_collides [] xs) eqn:E; [|reflexivity].
      apply (range_collides_iff xs [] Hnil Hxs) in E.
      destruct E as [(x & y & _ & [] & _) | E]. contradiction. }
    destruct (insert_range_clean _ _ Ec) as (Hl & _). exact Hl.
Qed.

Lemma TransitSet_of_range_sum_witness :
  Forall uniform_load [rec_u2; rec_u4; rec_u4]
  /\ sum_ok (TS.of_range [rec_u2; rec_u4; rec_u4])
  /\ ordered_set (d_set (TS.of_range [rec_u2; rec_u4; rec_u4]))
  /\ (TS.size (TS.of_range [rec_u2; rec_u4; rec_u4]) <= 3)%nat.
Proof.
  assert (H : Forall uniform_load [rec_u2; rec_u4; rec_u4]).
  { repeat constructor. }
  destruct (TransitSet_of_range_sum _ H) as (H1 & H2 & _ & _ & H5 & _).
  split; [exact H|]. split; [exact H1|]. split; [exact H2 | exact H5].
Defined.

Lemma erase_at_length (l : StdSet.t) (pos : nat) (e : BoxInTransit) :
  nth_error l pos = Some e -> length l = S (length (StdSet.erase_at l pos)).
Proof.
  revert pos. induction l as [|e0 l IH]; intros [|p]; simpl; try discriminate.
  - reflexivity.
  - intros H. rewrite (IH p H). reflexivity.
Qed.

Lemma erase_at_gone (l : StdSet.t) (pos : nat) (e : BoxInTransit) :
  StronglySorted (fun a b => BoxInTransitMoreLoad a b = true) l ->
  nth_error l pos = Some e -> ~ In e (StdSet.erase_at l pos).
Proof.
  intros Hs. revert pos.
  induction Hs as [|a l Hs IH Ha]; intros [|p]; simpl; try discriminate;
    rewrite Forall_forall in Ha.
  - intros H. injection H as <-. intros Hin.
    pose proof (Ha _ Hin) as Hc. rewrite MoreLoad_irrefl in Hc. discriminate.
  - intros H [<- | Hin].
    + apply nth_error_In in H. pose proof (Ha _ H) as Hc.
      rewrite MoreLoad_irrefl in Hc. discriminate.
    + exact (IH p H Hin).
Qed.

Lemma erase_at_others (l : StdSet.t) (pos : nat) (e z : BoxInTransit) :
  nth_error l pos = Some e -> In z l -> z = e \/ In z (StdSet.erase_at l pos).
Proof.
  revert pos. induction l as [|a l IH]; intros [|p]; simpl; try discriminate.
  - intros H [<- | Hin]; [left; injection H as <-; reflexivity | right; exact Hin].
  - intros H [<- | Hin]; [right; left; reflexivity|].
    destruct (IH p H Hin) as [-> | Hz]; [left; reflexivity | right; right; exact Hz].
Qed.

(** X4: in a set built from records that carry the cell count of their
    box, [erase(iterator)] at a position that holds the record [e] takes
    exactly that record out: [e] is gone, every other record stays, the
    order is kept, the size drops by one, the load of [e] is subtracted
    from the cached sum, and the cached sum is the naive sum over what
    is left. *)
Theorem TransitSet_erase_pos (s : TransitSet) (pos : nat) (e : BoxInTransit) :
  reachable uniform_load any_key s ->
  nth_error (d_set s) pos = Some e ->
  exists s', TS.erase_pos s pos = Some s'
    /\ TS.size s = S (TS.size s')
    /\ ~ In e (d_set s')
    /\ (forall z, In z (d_set s) -> z = e \/ In z (d_set s'))
    /\ (forall z, In z (d_set s') -> In z (d_set s))
    /\ ordered_set (d_set s')
    /\ TS.getSumLoad s' = (TS.getSumLoad s - d_boxload e)%Q
    /\ sum_ok s'.
Proof.
  intros R He.
  pose proof (reachable_uniform_ordered s R) as Hl.
  unfold TS.erase_pos. rewrite He. eexists.
  split; [reflexivity|]. simpl.
  split; [unfold TS.size; simpl; exact (erase_at_length _ _ _ He)|].
  split; [exact (erase_at_gone _ _ _ (proj1 Hl) He)|].
  split; [intros z; exact (erase_at_others _ _ _ z He)|].
  split; [intros z; apply erase_at_In|].
  split; [exact (erase_at_ordered _ pos Hl)|].
  split; [reflexivity|].
  apply (TS_erase_pos_sum_ok s _ pos (reachable_uniform_sum_ok s R)).
  unfold TS.erase_pos. rewrite He. reflexivity.
Qed.

Lemma TransitSet_erase_pos_witness :
  reachable uniform_load any_key set_u
  /\ nth_error (d_set set_u) 1 = Some rec_u2
  /\ exists s', TS.erase_pos set_u 1 = Some s'
       /\ TS.size set_u = S (TS.size s')
       /\ ~ In rec_u2 (d_set s')
       /\ sum_ok s'.
Proof.
  assert (R : reachable uniform_load any_key set_u).
  { unfold set_u.
    apply reach_insert; [apply reach_insert; [apply reach_new|]|]; reflexivity. }
  split; [exact R|]. split; [reflexivity|].
  destruct (TransitSet_erase_pos set_u 1 rec_u2 R eq_refl)
    as (s' & E & Hn & Hg & _ & _ & _ & _ & Hs).
  exists s'. split; [exact E|]. split; [exact Hn|]. split; [exact Hg | exact Hs].
Defined.

Lemma MoreLoad_uniform_load_le (a b : BoxInTransit) :
  uniform_load a -> uniform_load b ->
  BoxInTransitMoreLoad a b = true -> (d_boxload b <= d_boxload a)%Q.
Proof.
  intros Ha Hb H. apply MoreLoad_cases in H.
  destruct H as [[_ H] | [H _]].
  - apply Qlt_le_weak. exact H.
  - apply (uniform_size_eq a b Ha Hb) in H. rewrite H. apply Qle_refl.
Qed.

(** X6: a TransitSet built from records that carry the cell count of
    their box iterates from highest load to lowest load. *)
Theorem TransitSet_load_descending (s : TransitSet) :
  reachable uniform_load any_key s ->
  StronglySorted (fun a b => (d_boxload b <= d_boxload a)%Q) (d_set s).
Proof.
  intros R. destruct (reachable_uniform_ordered s R) as [Hs Hu].
  induction Hs as [|e l Hs IH He]; constructor.
  - apply IH. apply Forall_cons_iff in Hu. tauto.
  - apply Forall_cons_iff in Hu. destruct Hu as [Hue Hu].
    rewrite Forall_forall in He, Hu |- *. intros z Hz.
    exact (MoreLoad_uniform_load_le e z Hue (Hu z Hz) (He z Hz)).
Qed.

Lemma TransitSet_load_descending_witness :
  reachable uniform_load any_key set_u
  /\ StronglySorted (fun a b => (d_boxload b <= d_boxload a)%Q) (d_set set_u).
Proof.
  assert (R : reachable uniform_load any_key set_u).
  { unfold set_u.
    apply reach_insert; [apply reach_insert; [apply reach_new|]|]; reflexivity. }
  split; [exact R|].
  exact (TransitSet_load_descending set_u R).
Defined.

(* ================================================================== *)
(** ** TransitSet: sizes, round trips, iterators *)
(* ================================================================== *)

Lemma erase_length (l : StdSet.t) (k : BoxInTransit) :
  (length (fst (StdSet.erase l k)) + snd (StdSet.erase l k))%nat = length l
  /\ (snd (StdSet.erase l k) <= 1)%nat.
Proof.
  destruct (StdSet.find l k) as [y|] eqn:Ef.
  - destruct (erase_some l k y Ef) as (Hn & _ & Hl & _).
    rewrite Hn, Hl. lia.
  - rewrite (erase_none l k Ef). simpl. lia.
Qed.

(** X5: for a set built from records that carry the cell count of
    their box and such records [x] and [k]: [insert(x)] reports an
    insertion exactly when no stored record is equivalent to [x], and
    [size()] grows by one exactly then; [erase(k)] returns 1 when a
    stored record is equivalent to [k] and 0 otherwise, and [size()]
    drops by what it returns; [empty()] holds exactly for size 0. *)
Theorem TransitSet_size_accounting (s : TransitSet) (x k : BoxInTransit) :
  reachable uniform_load any_key s -> uniform_load x -> uniform_load k ->
  TS.size (snd (TS.insert s x))
  = (TS.size s + if snd (fst (TS.insert s x)) then 1 else 0)%nat
  /\ (snd (fst (TS.insert s x)) = true
      <-> forall y, In y (d_set s) -> key_equiv x y = false)
  /\ (TS.size (snd (TS.erase s k)) + fst (TS.erase s k))%nat = TS.size s
  /\ (fst (TS.erase s k) <= 1)%nat
  /\ (fst (TS.erase s k) = 1%nat
      <-> exists y, In y (d_set s) /\ key_equiv k y = true)
  /\ (TS.empty s = true <-> TS.size s = O).
Proof.
  intros R Hx Hk. pose proof (reachable_uniform_ordered s R) as Hl.
  unfold TS.size. split; [|split; [|split; [|split; [|split]]]].
  - unfold TS.insert. simpl.
    destruct (snd (StdSet.insert (d_set s) x)) eqn:E.
    + rewrite (insert_done_length _ _ E). lia.
    + rewrite (insert_refused_same _ _ E). lia.
  - unfold TS.insert. simpl. rewrite insert_snd_find.
    destruct (StdSet.find (d_set s) x) as [y|] eqn:Ef.
    + split; [discriminate|]. intros H.
      destruct (find_sound _ _ _ Ef) as [Hin Heq].
      rewrite (H y Hin) in Heq. discriminate.
    + split; [|reflexivity]. intros _ y Hin.
      destruct (key_equiv x y) eqn:Heq; [|reflexivity].
      rewrite (find_complete _ _ _ Hl Hx Hin Heq) in Ef. discriminate.
  - unfold TS.erase. simpl. exact (proj1 (erase_length (d_set s) k)).
  - unfold TS.erase. simpl. exact (proj2 (erase_length (d_set s) k)).
  - unfold TS.erase. simpl.
    destruct (StdSet.find (d_set s) k) as [y|] eqn:Ef.
    + destruct (erase_some _ _ _ Ef) as (Hn & _). split; [|intros _; exact Hn].
      intros _. exists y. exact (find_sound _ _ _ Ef).
    + rewrite (erase_none _ _ Ef). simpl. split; [discriminate|].
      intros (y & Hin & Heq).
      rewrite (find_complete _ _ _ Hl Hk Hin Heq) in Ef. discriminate.
  - unfold TS.empty. destruct (d_set s); simpl; split;
      try reflexivity; discriminate.
Qed.

Lemma TransitSet_size_accounting_witness :
  reachable uniform_load any_key set_u4
  /\ uniform_load rec_u2 /\ uniform_load rec_u4
  /\ TS.size (snd (TS.insert set_u4 rec_u2)) = 2%nat
  /\ fst (TS.erase set_u4 rec_u4) = 1%nat.
Proof.
  assert (R : reachable uniform_load any_key set_u4).
  { unfold set_u4. apply reach_insert; [apply reach_new | reflexivity]. }
  assert (H2 : uniform_load rec_u2) by reflexivity.
  assert (H4 : uniform_load rec_u4) by reflexivity.
  destruct (TransitSet_size_accounting set_u4 rec_u2 rec_u4 R H2 H4)
    as (Hs & _ & _ & _ & He & _).
  split; [exact R|]. split; [exact H2|]. split; [exact H4|].
  split; [exact Hs|]. apply He. exists rec_u4. split; [left|]; reflexivity.
Defined.

Lemma erase_after_insert (l : StdSet.t) (x : BoxInTransit) :
  snd (StdSet.insert l x) = true ->
  StdSet.erase (fst (StdSet.insert l x)) x = (l, 1%nat).
Proof.
  induction l as [|e l IH]; simpl.
  - intros _. rewrite MoreLoad_irrefl. reflexivity.
  - destruct (BoxInTransitMoreLoad e x) eqn:Eex; simpl.
    + intros H. rewrite Eex, (IH H). reflexivity.
    + destruct (BoxInTransitMoreLoad x e) eqn:Exe; simpl; [|discriminate].
      intros _. rewrite MoreLoad_irrefl. reflexivity.
Qed.

(** X8: for a set built from records that carry the cell count of
    their box and such a record [x], an [insert(x)] that went in is
    undone by [erase(x)]: the erase returns 1, the contents are those
    before the insert, and so is the cached sum. *)
Theorem TransitSet_insert_then_erase (s : TransitSet) (x : BoxInTransit) :
  reachable uniform_load any_key s -> uniform_load x ->
  snd (fst (TS.insert s x)) = true ->
  fst (TS.erase (snd (TS.insert s x)) x) = 1%nat
  /\ d_set (snd (TS.erase (snd (TS.insert s x)) x)) = d_set s
  /\ (TS.getSumLoad (snd (TS.erase (snd (TS.insert s x)) x))
      == TS.getSumLoad s)%Q
  /\ sum_ok (snd (TS.erase (snd (TS.insert s x)) x)).
Proof.
  intros R _. pose proof (reachable_uniform_sum_ok s R) as Hok.
  unfold sum_ok, computeLoad_set in *.
  unfold TS.insert, TS.erase, TS.getSumLoad in *. simpl. intros E.
  rewrite (erase_after_insert _ _ E), E. simpl.
  split; [reflexivity|]. split; [reflexivity|].
  split; [ring|]. rewrite <- Hok. ring.
Qed.

Lemma TransitSet_insert_then_erase_witness :
  reachable uniform_load any_key set_u4
  /\ uniform_load rec_u2
  /\ snd (fst (TS.insert set_u4 rec_u2)) = true
  /\ fst (TS.erase (snd (TS.insert set_u4 rec_u2)) rec_u2) = 1%nat
  /\ d_set (snd (TS.erase (snd (TS.insert set_u4 rec_u2)) rec_u2)) = d_set set_u4
  /\ (TS.getSumLoad (snd (TS.erase (snd (TS.insert set_u4 rec_u2)) rec_u2))
      == TS.getSumLoad set_u4)%Q
  /\ sum_ok (snd (TS.erase (snd (TS.insert set_u4 rec_u2)) rec_u2)).
Proof.
  assert (R : reachable uniform_load any_key set_u4).
  { unfold set_u4. apply reach_insert; [apply reach_new | reflexivity]. }
  assert (H2 : uniform_load rec_u2) by reflexivity.
  split; [exact R|]. split; [exact H2|]. split; [reflexivity|].
  exact (TransitSet_insert_then_erase set_u4 rec_u2 R H2 eq_refl).
Defined.

Lemma insert_after_erase (l : StdSet.t) (k y : BoxInTransit) :
  StronglySorted (fun a b => BoxInTransitMoreLoad a b = true) l ->
  StdSet.find l k = Some y ->
  StdSet.insert (fst (StdSet.erase l k)) y = (l, true).
Proof.
  intros Hs. induction Hs as [|e l Hs IH He]; simpl; [discriminate|].
  rewrite Forall_forall in He.
  destruct (BoxInTransitMoreLoad e k) eqn:Eek; simpl.
  - intros Ef. destruct (find_sound _ _ _ Ef) as [Hin _].
    rewrite (He y Hin), (IH Ef). reflexivity.
  - destruct (BoxInTransitMoreLoad k e); [discriminate|].
    intros Ef. injection Ef as <-. simpl.
    destruct l as [|e2 l2]; [reflexivity|]. simpl.
    assert (H2 : BoxInTransitMoreLoad e e2 = true) by (apply He; left; reflexivity).
    rewrite (MoreLoad_asym _ _ H2), H2. reflexivity.
Qed.

(** X9: for a set built from records that carry the cell count of
    their box and such a key [k]: when the stored record [y] is
    equivalent to [k], [erase(k)] returns 1 and is undone by
    [insert(y)]: the insert goes in, and the contents and the cached sum
    are those before the erase. *)
Theorem TransitSet_erase_then_insert (s : TransitSet) (k y : BoxInTransit) :
  reachable uniform_load any_key s -> uniform_load k ->
  In y (d_set s) -> key_equiv k y = true ->
  fst (TS.erase s k) = 1%nat
  /\ snd (fst (TS.insert (snd (TS.erase s k)) y)) = true
  /\ d_set (snd (TS.insert (snd (TS.erase s k)) y)) = d_set s
  /\ (TS.getSumLoad (snd (TS.insert (snd (TS.erase s k)) y))
      == TS.getSumLoad s)%Q.
Proof.
  intros R Hk Hin Heq.
  destruct (reachable_uniform_ordered s R) as [Hs Hu].
  pose proof (find_complete _ _ _ (conj Hs Hu) Hk Hin Heq) as Ef.
  rewrite Forall_forall in Hu.
  pose proof (proj1 (key_equiv_uniform k y Hk (Hu y Hin) Heq)) as Hload.
  pose proof (insert_after_erase _ _ _ Hs Ef) as Hi.
  destruct (erase_some _ _ _ Ef) as (Hn & _).
  unfold TS.insert, TS.erase, TS.getSumLoad. simpl.
  rewrite Hi, Hn. simpl. split; [reflexivity|]. split; [reflexivity|].
  split; [reflexivity|]. rewrite Hload. ring.
Qed.

Lemma TransitSet_erase_then_insert_witness :
  reachable uniform_load any_key set_u
  /\ uniform_load rec_u2
  /\ In rec_u2 (d_set set_u)
  /\ key_equiv rec_u2 rec_u2 = true
  /\ fst (TS.erase set_u rec_u2) = 1%nat
  /\ snd (fst (TS.insert (snd (TS.erase set_u rec_u2)) rec_u2)) = true
  /\ d_set (snd (TS.insert (snd (TS.erase set_u rec_u2)) rec_u2)) = d_set set_u
  /\ (TS.getSumLoad (snd (TS.insert (snd (TS.erase set_u rec_u2)) rec_u2))
      == TS.getSumLoad set_u)%Q.
Proof.
  assert (R : reachable uniform_load any_key set_u).
  { unfold set_u.
    apply reach_insert; [apply reach_insert; [apply reach_new|]|]; reflexivity. }
  assert (H2 : uniform_load rec_u2) by reflexivity.
  assert (Hin : In rec_u2 (d_set set_u)) by (right; left; reflexivity).
  split; [exact R|]. split; [exact H2|]. split; [exact Hin|].
  split; [reflexivity|].
  exact (TransitSet_erase_then_insert set_u rec_u2 rec_u2 R H2 Hin eq_refl).
Defined.

Lemma lower_bound_le (l : StdSet.t) (k : BoxInTransit) :
  (StdSet.lower_bound l k <= length l)%nat.
Proof.
  induction l as [|e l IH]; simpl; [lia|].
  destruct (BoxInTransitMoreLoad e k); simpl; lia.
Qed.

Lemma lower_bound_after_insert (l : StdSet.t) (x : BoxInTransit) :
  StdSet.lower_bound (fst (StdSet.insert l x)) x = StdSet.lower_bound l x.
Proof.
  induction l as [|e l IH]; simpl.
  - rewrite MoreLoad_irrefl. reflexivity.
  - destruct (BoxInTransitMoreLoad e x) eqn:Eex; simpl.
    + rewrite Eex, IH. reflexivity.
    + destruct (BoxInTransitMoreLoad x e); simpl.
      * rewrite MoreLoad_irrefl. reflexivity.
      * rewrite Eex. reflexivity.
Qed.

(** X10: for a set built from records that carry the cell count of
    their box and such a record [x], the iterator [insert(x)] returns
    points, in the set after the call, at a record equivalent to [x]: at
    [x] itself when the call reports an insertion, at the record already
    stored otherwise; and [lower_bound(x)] on the set after the call is
    that same position. *)
Theorem TransitSet_insert_iterator (s : TransitSet) (x : BoxInTransit) :
  reachable uniform_load any_key s -> uniform_load x ->
  exists z,
    nth_error (d_set (snd (TS.insert s x))) (fst (fst (TS.insert s x))) = Some z
    /\ key_equiv x z = true
    /\ (snd (fst (TS.insert s x)) = true -> z = x)
    /\ (snd (fst (TS.insert s x)) = false -> In z (d_set s))
    /\ TS.lower_bound (snd (TS.insert s x)) x = fst (fst (TS.insert s x)).
Proof.
  intros _ _.
  unfold TS.insert, TS.lower_bound. simpl.
  destruct (snd (StdSet.insert (d_set s) x)) eqn:E.
  - exists x. rewrite (insert_at_lower_bound _ _ E).
    pose proof (lower_bound_le (d_set s) x) as Hle.
    split.
    + rewrite nth_error_app2 by (rewrite length_firstn; lia).
      rewrite length_firstn, Nat.min_l by exact Hle.
      rewrite Nat.sub_diag. reflexivity.
    + split; [apply key_equiv_refl|]. split; [reflexivity|].
      split; [discriminate|].
      rewrite <- (insert_at_lower_bound _ _ E).
      apply lower_bound_after_insert.
  - rewrite insert_snd_find in E.
    destruct (StdSet.find (d_set s) x) as [y|] eqn:Ef; [|discriminate].
    assert (E' : snd (StdSet.insert (d_set s) x) = false).
    { rewrite insert_snd_find, Ef. reflexivity. }
    rewrite (insert_refused_same _ _ E').
    destruct (erase_at_lower_bound _ _ _ Ef) as [_ Hn].
    destruct (find_sound _ _ _ Ef) as [Hin Heq].
    exists y. split; [exact Hn|]. split; [exact Heq|].
    split; [discriminate|]. split; [intros _; exact Hin | reflexivity].
Qed.

Lemma TransitSet_insert_iterator_witness :
  reachable uniform_load any_key set_u4
  /\ uniform_load rec_u2
  /\ exists z,
       nth_error (d_set (snd (TS.insert set_u4 rec_u2)))
                 (fst (fst (TS.insert set_u4 rec_u2))) = Some z
       /\ key_equiv rec_u2 z = true
       /\ (snd (fst (TS.insert set_u4 rec_u2)) = true -> z = rec_u2)
       /\ (snd (fst (TS.insert set_u4 rec_u2)) = false -> In z (d_set set_u4))
       /\ TS.lower_bound (snd (TS.insert set_u4 rec_u2)) rec_u2
          = fst (fst (TS.insert set_u4 rec_u2)).
Proof.
  assert (R : reachable uniform_load any_key set_u4).
  { unfold set_u4. apply reach_insert; [apply reach_new | reflexivity]. }
  assert (H2 : uniform_load rec_u2) by reflexivity.
  split; [exact R|]. split; [exact H2|].
  exact (TransitSet_insert_iterator set_u4 rec_u2 R H2).
Defined.

(* ------------------------------------------------------------------ *)
(** *** Bounds on an ordered set *)

Lemma lower_bound_count (l : StdSet.t) (k : BoxInTransit) :
  ordered_set l -> uniform_load k ->
  StdSet.lower_bound l k = count_before l k.
Proof.
  unfold count_before. intros Hl Hk.
  induction l as [|e l IH]; simpl; [reflexivity|].
  pose proof (ordered_set_tail l e Hl) as Hl'.
  destruct (BoxInTransitMoreLoad e k) eqn:Eek; simpl.
  - rewrite (IH Hl'). reflexivity.
  - destruct Hl as [Hs Hu].
    apply StronglySorted_inv in Hs. destruct Hs as [_ He].
    apply Forall_cons_iff in Hu. destruct Hu as [Hue Hu].
    rewrite Forall_forall in He, Hu.
    clear IH Hl'. induction l as [|z l IHl]; simpl; [reflexivity|].
    destruct (BoxInTransitMoreLoad z k) eqn:Ezk.
    + exfalso.
      assert (Hez : BoxInTransitMoreLoad e z = true) by (apply He; left; reflexivity).
      assert (Huz : uniform_load z) by (apply Hu; left; reflexivity).
      rewrite (MoreLoad_uniform_trans e z k Hue Huz Hk Hez Ezk) in Eek.
      discriminate.
    + apply IHl; intros w Hw; [apply He | apply Hu]; right; exact Hw.
Qed.

Lemma upper_bound_count (l : StdSet.t) (k : BoxInTransit) :
  ordered_set l -> uniform_load k ->
  StdSet.upper_bound l k = count_not_after l k.
Proof.
  unfold count_not_after. intros Hl Hk.
  induction l as [|e l IH]; simpl; [reflexivity|].
  pose proof (ordered_set_tail l e Hl) as Hl'.
  destruct (BoxInTransitMoreLoad k e) eqn:Eke; simpl.
  - destruct Hl as [Hs Hu].
    apply StronglySorted_inv in Hs. destruct Hs as [_ He].
    apply Forall_cons_iff in Hu. destruct Hu as [Hue Hu].
    rewrite Forall_forall in He, Hu.
    clear IH Hl'. induction l as [|z l IHl]; simpl; [reflexivity|].
    assert (Hez : BoxInTransitMoreLoad e z = true) by (apply He; left; reflexivity).
    assert (Huz : uniform_load z) by (apply Hu; left; reflexivity).
    rewrite (MoreLoad_uniform_trans k e z Hk Hue Huz Eke Hez). simpl.
    apply IHl; intros w Hw; [apply He | apply Hu]; right; exact Hw.
  - rewrite (IH Hl'). reflexivity.
Qed.

Lemma count_equiv_split (l : StdSet.t) (k : BoxInTransit) :
  count_not_after l k
  = (count_before l k + length (filter (key_equiv k) l))%nat.
Proof.
  unfold count_not_after, count_before, key_equiv.
  induction l as [|e l IH]; simpl; [reflexivity|].
  destruct (BoxInTransitMoreLoad e k) eqn:Eek.
  - rewrite (MoreLoad_asym _ _ Eek). simpl. rewrite IH. lia.
  - destruct (BoxInTransitMoreLoad k e); simpl; rewrite IH; lia.
Qed.

Lemma erase_count_equiv (l : StdSet.t) (k : BoxInTransit) :
  ordered_set l -> uniform_load k ->
  snd (StdSet.erase l k) = length (filter (key_equiv k) l).
Proof.
  intros Hl Hk. induction l as [|e l IH]; simpl; [reflexivity|].
  pose proof (ordered_set_tail l e Hl) as Hl'.
  destruct Hl as [Hs Hu].
  apply StronglySorted_inv in Hs. destruct Hs as [_ He].
  apply Forall_cons_iff in Hu. destruct Hu as [Hue Hu].
  rewrite Forall_forall in He, Hu.
  assert (Hrest : forall z, In z l -> BoxInTransitMoreLoad e k = false ->
                            key_equiv k z = false).
  { intros z Hz Eek. unfold key_equiv.
    destruct (BoxInTransitMoreLoad k z) eqn:Ekz; [reflexivity|].
    destruct (BoxInTransitMoreLoad z k) eqn:Ezk; [rewrite andb_false_r; reflexivity|].
    exfalso.
    assert (Heq : key_equiv k z = true).
    { unfold key_equiv. rewrite Ekz, Ezk. reflexivity. }
    rewrite (MoreLoad_uniform_equiv_r e z k Hue (Hu z Hz) Hk (He z Hz) Heq) in Eek.
    discriminate. }
  unfold key_equiv at 1.
  destruct (BoxInTransitMoreLoad e k) eqn:Eek; simpl.
  - rewrite andb_false_r. exact (IH Hl').
  - assert (Hnil : filter (key_equiv k) l = []).
    { clear -Hrest. induction l as [|z l IHl]; simpl; [reflexivity|].
      rewrite (Hrest z (or_introl eq_refl) eq_refl).
      apply IHl. intros w Hw. apply Hrest. right. exact Hw. }
    rewrite Hnil. destruct (BoxInTransitMoreLoad k e); reflexivity.
Qed.

(** X7: on an ordered set of uniform records and for a uniform key,
    [lower_bound(k)] is the number of stored records that precede [k],
    [upper_bound(k)] the number of those that [k] does not precede, and
    the two are as far apart as [erase(k)] erases records: 0 or 1. *)
Theorem TransitSet_bounds (s : TransitSet) (k : BoxInTransit) :
  ordered_set (d_set s) -> uniform_load k ->
  TS.lower_bound s k = count_before (d_set s) k
  /\ TS.upper_bound s k = count_not_after (d_set s) k
  /\ TS.upper_bound s k = (TS.lower_bound s k + fst (TS.erase s k))%nat
  /\ (TS.lower_bound s k <= TS.upper_bound s k <= TS.size s)%nat.
Proof.
  intros Hl Hk. unfold TS.lower_bound, TS.upper_bound, TS.erase, TS.size.
  simpl.
  rewrite (lower_bound_count _ _ Hl Hk), (upper_bound_count _ _ Hl Hk),
          (erase_count_equiv _ _ Hl Hk), <- count_equiv_split.
  repeat split.
  - rewrite count_equiv_split. lia.
  - unfold count_not_after. apply filter_length_le.
Qed.

Lemma TransitSet_bounds_witness :
  ordered_set (d_set set_u) /\ uniform_load rec_u2
  /\ TS.lower_bound set_u rec_u2 = count_before (d_set set_u) rec_u2
  /\ TS.upper_bound set_u rec_u2 = count_not_after (d_set set_u) rec_u2
  /\ TS.upper_bound set_u rec_u2
     = (TS.lower_bound set_u rec_u2 + fst (TS.erase set_u rec_u2))%nat
  /\ (TS.lower_bound set_u rec_u2 <= TS.upper_bound set_u rec_u2
      <= TS.size set_u)%nat.
Proof.
  assert (Hl : ordered_set (d_set set_u)).
  { split; repeat constructor; reflexivity. }
  assert (Hk : uniform_load rec_u2) by reflexivity.
  split; [exact Hl|]. split; [exact Hk|].
  exact (TransitSet_bounds set_u rec_u2 Hl Hk).
Defined.

(* ------------------------------------------------------------------ *)
(** *** Keys are unique *)

Lemma StronglySorted_nth {A : Type} (R : A -> A -> Prop) (l : list A)
      (i j : nat) (a b : A) :
  StronglySorted R l -> (i < j)%nat ->
  nth_error l i = Some a -> nth_error l j = Some b -> R a b.
Proof.
  intros Hs. revert i j. induction Hs as [|e l Hs IH He]; intros i j Hij.
  - destruct i; discriminate.
  - destruct j as [|j]; [lia|]. destruct i as [|i]; simpl.
    + intros Ha Hb. injection Ha as <-.
      rewrite Forall_forall in He. apply He. exact (nth_error_In _ _ Hb).
    + apply IH. lia.
Qed.

Lemma uniform_same_key_equiv (a b : BoxInTransit) :
  uniform_load a -> uniform_load b ->
  (d_boxload a == d_boxload b)%Q -> box_id (d_box a) = box_id (d_box b) ->
  key_equiv a b = true.
Proof.
  intros Ha Hb Hl Hi. apply key_equiv_iff. rewrite !MoreLoad_false_iff.
  rewrite (MoreLoad_uniform_key a b Ha Hb), (MoreLoad_uniform_key b a Hb Ha).
  apply (uniform_size_eq a b Ha Hb) in Hl. unfold getBox in Hl.
  rewrite Hi. lia.
Qed.

(** X11: in a TransitSet built from records that carry the cell count of
    their box, a record at an earlier position precedes every record at
    a later one, so no two stored records have both the same load and
    the same box id. *)
Theorem TransitSet_unique_keys (s : TransitSet) (i j : nat)
        (a b : BoxInTransit) :
  reachable uniform_load any_key s ->
  (i < j)%nat ->
  nth_error (d_set s) i = Some a -> nth_error (d_set s) j = Some b ->
  BoxInTransitMoreLoad a b = true
  /\ ~ ((d_boxload a == d_boxload b)%Q
        /\ box_id (d_box a) = box_id (d_box b)).
Proof.
  intros R Hij Ha Hb.
  destruct (reachable_uniform_ordered s R) as [Hs Hu].
  rewrite Forall_forall in Hu.
  pose proof (StronglySorted_nth _ _ i j a b Hs Hij Ha Hb) as Hab.
  split; [exact Hab|]. intros [Hl Hi].
  pose proof (uniform_same_key_equiv a b
                (Hu a (nth_error_In _ _ Ha)) (Hu b (nth_error_In _ _ Hb)) Hl Hi) as Heq.
  apply key_equiv_iff in Heq. destruct Heq as [Heq _]. congruence.
Qed.

Lemma TransitSet_unique_keys_witness :
  reachable uniform_load any_key set_u
  /\ BoxInTransitMoreLoad rec_u4 rec_u2 = true
  /\ ~ ((d_boxload rec_u4 == d_boxload rec_u2)%Q
        /\ box_id (d_box rec_u4) = box_id (d_box rec_u2)).
Proof.
  assert (R : reachable uniform_load any_key set_u).
  { unfold set_u.
    apply reach_insert; [apply reach_insert; [apply reach_new|]|]; reflexivity. }
  split; [exact R|].
  refine (TransitSet_unique_keys set_u 0 1 rec_u4 rec_u2 R _ eq_refl eq_refl).
  lia.
Defined.

(* ================================================================== *)
(** ** The load model: tilings and restrictions *)
(* ================================================================== *)

Lemma list_sum_const_zero {A : Type} (L : list A) :
  list_sum (map (fun _ => O) L) = O.
Proof. induction L; simpl; auto. Qed.

Lemma list_sum_map_add {A : Type} (f g : A -> nat) (L : list A) :
  list_sum (map (fun q => (f q + g q)%nat) L)
  = (list_sum (map f L) + list_sum (map g L))%nat.
Proof. induction L as [|q L IH]; simpl; [reflexivity | rewrite IH; lia]. Qed.

Lemma list_sum_indicator {A : Type} (f : A -> bool) (L : list A) :
  list_sum (map (fun q => if f q then 1%nat else O) L) = length (filter f L).
Proof.
  induction L as [|q L IH]; simpl; [reflexivity|].
  destruct (f q); simpl; rewrite IH; reflexivity.
Qed.

(** Counting, index by index, the boxes that contain it is counting, box
    by box, the indices it contains. *)
Lemma covering_double_count (pieces : list Box) (L : list Index) :
  list_sum (map (covering pieces) L)
  = list_sum (map (fun b => length (filter (contains b) L)) pieces).
Proof.
  induction pieces as [|b pieces IH]; simpl.
  - apply list_sum_const_zero.
  - rewrite <- IH, <- list_sum_indicator, <- list_sum_map_add.
    f_equal. apply map_ext. intros q. apply covering_cons.
Qed.

Lemma cells_within_count (b box : Box) :
  cells_within b box ->
  length (filter (contains b) (cells box)) = length (cells b).
Proof.
  intros Hw. apply Permutation_length, NoDup_Permutation.
  - apply NoDup_filter, NoDup_cells_of.
  - apply NoDup_cells_of.
  - intros p. rewrite filter_In. unfold cells. rewrite !In_cells_of.
    split; [tauto|]. intros H. split; [exact (Hw p H) | exact H].
Qed.

Lemma tiles_within (pieces : list Box) (box b : Box) :
  tiles pieces box -> In b pieces -> cells_within b box.
Proof.
  intros Ht Hin p Hp. specialize (Ht p).
  pose proof (covering_pos pieces b p Hin Hp) as Hpos.
  destruct (contains box p); [reflexivity | lia].
Qed.

Lemma load_sum_cells (pieces : list Box) :
  (load_sum pieces
   == inject_Z (Z.of_nat (list_sum (map (fun b => length (cells b)) pieces))))%Q.
Proof.
  induction pieces as [|b pieces IH]; simpl; [reflexivity|].
  rewrite IH, Nat2Z.inj_add, inject_Z_plus.
  unfold computeLoad. rewrite size_cell_count. reflexivity.
Qed.

(** X13: [computeLoad] is additive over tilings: when the boxes of a
    list tile a box (every cell of the box in exactly one of them, none
    of them with a cell outside), their loads add up to the load of the
    box. *)
Theorem computeLoad_tiling (pieces : list Box) (box : Box) :
  tiles pieces box ->
  (load_sum pieces == computeLoad box)%Q.
Proof.
  intros Ht. rewrite load_sum_cells. unfold computeLoad.
  rewrite size_cell_count. unfold cell_count.
  apply inject_Z_injective. f_equal.
  transitivity (list_sum (map (covering pieces) (cells box))).
  - rewrite covering_double_count. f_equal.
    apply map_ext_in. intros b Hb. symmetry.
    apply cells_within_count. exact (tiles_within pieces box b Ht Hb).
  - transitivity (list_sum (map (fun _ : Index => 1%nat) (cells box))).
    + f_equal. apply map_ext_in. intros p Hp.
      rewrite (Ht p). apply In_cells_of in Hp. unfold contains.
      rewrite Hp. reflexivity.
    + generalize (cells box). intros L.
      induction L as [|q L IH]; simpl; [reflexivity | rewrite IH; reflexivity].
Qed.

Lemma computeLoad_tiling_witness :
  tiles [box_left; box_right] box_8x8
  /\ (load_sum [box_left; box_right] == computeLoad box_8x8)%Q.
Proof.
  assert (Ht : tiles [box_left; box_right] box_8x8).
  { intros p. rewrite !covering_cons. unfold covering. simpl.
    rewrite Nat.add_0_r.
    exact (slab_split [] [(0, 7)] 0 7 4 p ltac:(lia)). }
  split; [exact Ht|].
  exact (computeLoad_tiling [box_left; box_right] box_8x8 Ht).
Defined.

Lemma intersect_axes_comm (a b : list (Z * Z)) :
  intersect_axes a b = intersect_axes b a.
Proof.
  unfold intersect_axes. revert b.
  induction a as [|[alo ahi] a IH]; intros [|[blo bhi] b]; simpl;
    try reflexivity.
  fold (intersect_axes a b). rewrite Z.max_comm, Z.min_comm. f_equal.
  apply IH.
Qed.

Lemma intersect_axes_self (a : list (Z * Z)) : intersect_axes a a = a.
Proof.
  unfold intersect_axes. induction a as [|[lo hi] a IH]; simpl; [reflexivity|].
  rewrite Z.max_id, Z.min_id, IH. reflexivity.
Qed.

Lemma volume_pos (ax : list (Z * Z)) :
  existsb (fun lh => snd lh <? fst lh) ax = false -> 0 < volume ax.
Proof.
  induction ax as [|[lo hi] ax IH]; simpl; [lia|].
  rewrite orb_false_iff, Z.ltb_ge. intros [H1 H2].
  specialize (IH H2). nia.
Qed.

(** X14: loads are never negative and zero exactly for empty boxes; the
    load of a box restricted to another does not depend on the order of
    the two, restricting a box to itself changes nothing, and for boxes
    of one dimension the restricted load is at most the load of the box,
    with equality when every cell of the box lies in the restriction. *)
Theorem computeLoad_restriction (box restriction : Box) :
  (0 <= computeLoad box)%Q
  /\ ((computeLoad box == 0)%Q <-> empty box = true)
  /\ computeLoad_in box restriction = computeLoad_in restriction box
  /\ computeLoad_in box box = computeLoad box
  /\ (getDim box = getDim restriction ->
      (computeLoad_in box restriction <= computeLoad box)%Q
      /\ (cells_within box restriction ->
          computeLoad_in box restriction = computeLoad box)).
Proof.
  unfold computeLoad, computeLoad_in.
  split; [|split; [|split; [|split]]].
  - rewrite <- (Zle_Qle 0). rewrite size_cell_count. unfold cell_count. lia.
  - change 0%Q with (inject_Z 0). rewrite inject_Z_injective.
    unfold size, empty.
    destruct (existsb (fun lh => snd lh <? fst lh) (axes box)) eqn:E.
    + split; reflexivity.
    + pose proof (volume_pos _ E). split; [lia | discriminate].
  - unfold size, empty, intersect. simpl.
    rewrite (intersect_axes_comm (axes box) (axes restriction)). reflexivity.
  - unfold size, empty, intersect. simpl.
    rewrite intersect_axes_self. reflexivity.
  - intros Hd. rewrite !size_cell_count, (common_cells_length _ _ Hd).
    unfold common_cell_count, cell_count. split.
    + rewrite <- Zle_Qle. apply inj_le. apply filter_length_le.
    + intros Hw. do 2 f_equal.
      rewrite forallb_filter_id; [reflexivity|].
      apply forallb_forall. intros p Hp. apply Hw.
      apply In_cells_of. exact Hp.
Qed.

Lemma computeLoad_restriction_witness :
  getDim box_core = getDim box_8x8
  /\ cells_within box_core box_8x8
  /\ (computeLoad_in box_core box_8x8 <= computeLoad box_core)%Q
  /\ computeLoad_in box_core box_8x8 = computeLoad box_core.
Proof.
  assert (Hw : cells_within box_core box_8x8).
  { intros p. apply (within_inside (axes box_8x8) (axes box_core)).
    reflexivity. }
  pose proof (proj2 (proj2 (proj2 (proj2
               (computeLoad_restriction box_core box_8x8)))) eq_refl) as H.
  split; [reflexivity|]. split; [exact Hw|].
  split; [exact (proj1 H) | exact (proj2 H Hw)].
Defined.

(* ================================================================== *)
(** ** Penalties *)
(* ================================================================== *)



(* ================================================================== *)
(** ** SubtreeData: surplus against excess *)
(* ================================================================== *)

(** X16: when the ideal load is at most the upper limit, excess is at
    most surplus and deficit at most margin, a subtree in excess is in
    surplus and a subtree in deficit has margin; a subtree is in surplus
    exactly when its deficit is negative, and in excess exactly when its
    margin is negative.  The effective quantities behave alike. *)
Theorem SubtreeData_limits (s : SubtreeData) :
  ((d_subtree_load_ideal s <= d_subtree_load_upperlimit s)%Q ->
   (excess s <= surplus s)%Q /\ (deficit s <= margin s)%Q
   /\ ((0 < excess s)%Q -> (0 < surplus s)%Q)
   /\ ((0 <= deficit s)%Q -> (0 <= margin s)%Q))
  /\ ((d_eff_load_ideal s <= d_eff_load_upperlimit s)%Q ->
      (effExcess s <= effSurplus s)%Q /\ (effDeficit s <= effMargin s)%Q
      /\ ((0 < effExcess s)%Q -> (0 < effSurplus s)%Q)
      /\ ((0 <= effDeficit s)%Q -> (0 <= effMargin s)%Q))
  /\ (((0 < surplus s)%Q <-> (deficit s < 0)%Q)
      /\ ((0 < excess s)%Q <-> (margin s < 0)%Q)
      /\ ((0 < effSurplus s)%Q <-> (effDeficit s < 0)%Q)
      /\ ((0 < effExcess s)%Q <-> (effMargin s < 0)%Q)).
Proof.
  unfold surplus, excess, margin, deficit,
         effSurplus, effExcess, effMargin, effDeficit.
  split; [intros H; repeat split; intros; lra|].
  split; [intros H; repeat split; intros; lra|].
  repeat split; intros; lra.
Qed.

Lemma SubtreeData_limits_witness :
  (d_subtree_load_ideal subtree_over <= d_subtree_load_upperlimit subtree_over)%Q
  /\ (excess subtree_over <= surplus subtree_over)%Q
  /\ ((0 < excess subtree_over)%Q -> (0 < surplus subtree_over)%Q).
Proof.
  assert (H : (d_subtree_load_ideal subtree_over
               <= d_subtree_load_upperlimit subtree_over)%Q) by discriminate.
  pose proof (proj1 (SubtreeData_limits subtree_over) H) as H'.
  split; [exact H|]. split; [exact (proj1 H') | exact (proj1 (proj2 (proj2 H')))].
Defined.

(* ================================================================== *)
(** ** TransitSet: erasing through the iterator, order of insertions *)
(* ================================================================== *)

(** X17: for a set built from records that carry the cell count of
    their box and a key [k] that compares with the stored records the
    way a record [k0] carrying its cell count does: when the stored
    record [y] is equivalent to [k], [erase(lower_bound(k))] removes the
    record that [erase(k)] removes, subtracts the load of [y] rather
    than that of [k], and so leaves the cached sum right whatever load
    the key carries. *)
Theorem TransitSet_erase_at_lower_bound (s : TransitSet) (k k0 y : BoxInTransit) :
  reachable uniform_load any_key s ->
  uniform_load k0 -> same_order_as (d_set s) k k0 ->
  In y (d_set s) -> key_equiv k y = true ->
  exists s',
    TS.erase_pos s (TS.lower_bound s k) = Some s'
    /\ d_set s' = d_set (snd (TS.erase s k))
    /\ TS.getSumLoad s' = (TS.getSumLoad s - d_boxload y)%Q
    /\ sum_ok s'.
Proof.
  intros R Hk0 Hso Hin Heq.
  pose proof (find_like_uniform _ k k0 y (reachable_uniform_ordered s R)
                                Hk0 Hso Hin Heq) as Ef.
  destruct (erase_at_lower_bound _ _ _ Ef) as [He Hn].
  unfold TS.erase_pos, TS.lower_bound. rewrite Hn. eexists.
  split; [reflexivity|]. simpl. split; [symmetry; exact He|].
  split; [reflexivity|].
  apply (TS_erase_pos_sum_ok s _ (StdSet.lower_bound (d_set s) k)
                             (reachable_uniform_sum_ok s R)).
  unfold TS.erase_pos. rewrite Hn. reflexivity.
Qed.

Lemma TransitSet_erase_at_lower_bound_witness :
  reachable uniform_load any_key set_u
  /\ uniform_load rec_u4
  /\ same_order_as (d_set set_u) rec_k3 rec_u4
  /\ In rec_u4 (d_set set_u)
  /\ key_equiv rec_k3 rec_u4 = true
  /\ exists s',
       TS.erase_pos set_u (TS.lower_bound set_u rec_k3) = Some s'
       /\ d_set s' = d_set (snd (TS.erase set_u rec_k3))
       /\ TS.getSumLoad s' = (TS.getSumLoad set_u - d_boxload rec_u4)%Q
       /\ sum_ok s'.
Proof.
  assert (R : reachable uniform_load any_key set_u).
  { unfold set_u.
    apply reach_insert; [apply reach_insert; [apply reach_new|]|]; reflexivity. }
  assert (Hk0 : uniform_load rec_u4) by reflexivity.
  assert (Hso : same_order_as (d_set set_u) rec_k3 rec_u4).
  { intros e [<- | [<- | []]]; split; reflexivity. }
  assert (Hin : In rec_u4 (d_set set_u)) by (left; reflexivity).
  split; [exact R|]. split; [exact Hk0|]. split; [exact Hso|].
  split; [exact Hin|]. split; [reflexivity|].
  exact (TransitSet_erase_at_lower_bound set_u rec_k3 rec_u4 rec_u4
           R Hk0 Hso Hin eq_refl).
Defined.

(** Looking up a key is not affected by inserting a record that is not
    equivalent to it. *)
Lemma find_insert_other (l : StdSet.t) (x k : BoxInTransit) :
  ordered_set l -> uniform_load x -> uniform_load k ->
  key_equiv k x = false ->
  StdSet.find (fst (StdSet.insert l x)) k = StdSet.find l k.
Proof.
  intros Hl Hx Hk Hne.
  pose proof (insert_ordered l x Hl Hx) as Hl'.
  destruct (StdSet.find (fst (StdSet.insert l x)) k) as [y'|] eqn:E';
    destruct (StdSet.find l k) as [y|] eqn:E.
  - destruct (find_sound _ _ _ E') as [Hin' Heq'].
    apply insert_In_inv in Hin'. destruct Hin' as [-> | Hin']; [congruence|].
    rewrite (find_complete l k y' Hl Hk Hin' Heq') in E. congruence.
  - destruct (find_sound _ _ _ E') as [Hin' Heq'].
    apply insert_In_inv in Hin'. destruct Hin' as [-> | Hin']; [congruence|].
    rewrite (find_complete l k y' Hl Hk Hin' Heq') in E. discriminate.
  - destruct (find_sound _ _ _ E) as [Hin Heq].
    rewrite (find_complete _ k y Hl' Hk (insert_keeps l x y Hin) Heq) in E'.
    discriminate.
  - reflexivity.
Qed.

(** Two lists in strict comparator order with the same uniform elements
    are the same list. *)
Lemma ordered_set_unique (l1 l2 : StdSet.t) :
  ordered_set l1 -> ordered_set l2 ->
  (forall z, In z l1 <-> In z l2) -> l1 = l2.
Proof.
  revert l2. induction l1 as [|e1 l1 IH]; intros [|e2 l2] H1 H2 Hm.
  - reflexivity.
  - exfalso. apply (proj2 (Hm e2)). left. reflexivity.
  - exfalso. apply (proj1 (Hm e1)). left. reflexivity.
  - pose proof (ordered_set_tail _ _ H1) as H1'.
    pose proof (ordered_set_tail _ _ H2) as H2'.
    destruct H1 as [Hs1 _], H2 as [Hs2 _].
    apply StronglySorted_inv in Hs1. destruct Hs1 as [_ He1].
    apply StronglySorted_inv in Hs2. destruct Hs2 as [_ He2].
    rewrite Forall_forall in He1, He2.
    assert (Heq : e1 = e2).
    { destruct (proj1 (Hm e1) (or_introl eq_refl)) as [E | Hin1]; [congruence|].
      destruct (proj2 (Hm e2) (or_introl eq_refl)) as [E | Hin2]; [congruence|].
      pose proof (He2 e1 Hin1) as Ha. pose proof (He1 e2 Hin2) as Hb.
      rewrite (MoreLoad_asym _ _ Ha) in Hb. discriminate. }
    subst e2. f_equal. apply IH; [exact H1' | exact H2' |].
    intros z. split; intros Hz.
    + destruct (proj1 (Hm z) (or_intror Hz)) as [E | Hin]; [|exact Hin].
      subst z. pose proof (He1 e1 Hz) as Hc.
      rewrite MoreLoad_irrefl in Hc. discriminate.
    + destruct (proj2 (Hm z) (or_intror Hz)) as [E | Hin]; [|exact Hin].
      subst z. pose proof (He2 e1 Hz) as Hc.
      rewrite MoreLoad_irrefl in Hc. discriminate.
Qed.

Lemma insert_In_iff (l : StdSet.t) (x z : BoxInTransit) :
  In z (fst (StdSet.insert l x))
  <-> In z l \/ (z = x /\ StdSet.find l x = None).
Proof.
  destruct (snd (StdSet.insert l x)) eqn:E.
  - pose proof E as E0. rewrite insert_snd_find in E0.
    destruct (StdSet.find l x); [discriminate|]. split.
    + intros H. apply insert_In_inv in H. destruct H as [-> | H]; auto.
    + intros [H | [-> _]]; [apply insert_keeps; exact H|].
      exact (insert_done_In _ _ E).
  - rewrite (insert_refused_same _ _ E). rewrite insert_snd_find in E.
    destruct (StdSet.find l x); [|discriminate]. split; [auto|].
    intros [H | [_ H]]; [exact H | discriminate].
Qed.

(** X18: on an ordered set of uniform records, inserting two records
    that are not equivalent keys gives the same set whichever goes
    first: the same contents, the same two return values and the same
    cached sum. *)
Theorem TransitSet_insert_commutes (s : TransitSet) (x y : BoxInTransit) :
  ordered_set (d_set s) -> uniform_load x -> uniform_load y ->
  key_equiv x y = false ->
  d_set (snd (TS.insert (snd (TS.insert s x)) y))
  = d_set (snd (TS.insert (snd (TS.insert s y)) x))
  /\ snd (fst (TS.insert (snd (TS.insert s x)) y)) = snd (fst (TS.insert s y))
  /\ snd (fst (TS.insert (snd (TS.insert s y)) x)) = snd (fst (TS.insert s x))
  /\ (TS.getSumLoad (snd (TS.insert (snd (TS.insert s x)) y))
      == TS.getSumLoad (snd (TS.insert (snd (TS.insert s y)) x)))%Q.
Proof.
  intros Hl Hx Hy Hne.
  assert (Hne' : key_equiv y x = false) by (rewrite key_equiv_sym; exact Hne).
  pose proof (find_insert_other _ x y Hl Hx Hy Hne') as Fy.
  pose proof (find_insert_other _ y x Hl Hy Hx Hne) as Fx.
  unfold TS.insert, TS.getSumLoad. simpl.
  rewrite !insert_snd_find, Fy, Fx.
  split; [|split; [reflexivity|split; [reflexivity|]]].
  - apply ordered_set_unique.
    + apply insert_ordered; [apply insert_ordered|]; assumption.
    + apply insert_ordered; [apply insert_ordered|]; assumption.
    + intros z. rewrite !insert_In_iff, Fy, Fx. tauto.
  - destruct (StdSet.find (d_set s) x), (StdSet.find (d_set s) y); ring.
Qed.

Lemma TransitSet_insert_commutes_witness :
  ordered_set (d_set TS.new) /\ uniform_load rec_u2 /\ uniform_load rec_u4
  /\ key_equiv rec_u2 rec_u4 = false
  /\ d_set (snd (TS.insert (snd (TS.insert TS.new rec_u2)) rec_u4))
     = d_set (snd (TS.insert (snd (TS.insert TS.new rec_u4)) rec_u2)).
Proof.
  assert (Hl : ordered_set (d_set TS.new)) by (split; constructor).
  assert (H2 : uniform_load rec_u2) by reflexivity.
  assert (H4 : uniform_load rec_u4) by reflexivity.
  split; [exact Hl|]. split; [exact H2|]. split; [exact H4|].
  split; [reflexivity|].
  exact (proj1 (TransitSet_insert_commutes TS.new rec_u2 rec_u4 Hl H2 H4 eq_refl)).
Defined.

(* ================================================================== *)
(** ** The three overloads of computeLoad agree *)
(* ================================================================== *)

Lemma total_load_uniform (l : list BoxInTransit) :
  Forall uniform_load l ->
  (total_load l == load_sum (map d_box l))%Q.
Proof.
  intros H. induction H as [|e l He _ IH]; simpl; [reflexivity|].
  rewrite IH. unfold uniform_load in He. rewrite He. reflexivity.
Qed.

(** X19: for a TransitSet built from records that carry the cell count
    of their box, [getSumLoad()] and [computeLoad(transit_set)] are both
    the sum of [computeLoad(box)] over the boxes in the set, and both
    are zero exactly when every box in the set is empty. *)
Theorem TransitSet_load_is_cell_count (s : TransitSet) :
  reachable uniform_load any_key s ->
  (computeLoad_set s == load_sum (map d_box (d_set s)))%Q
  /\ (TS.getSumLoad s == load_sum (map d_box (d_set s)))%Q
  /\ ((TS.getSumLoad s == 0)%Q
      <-> forall e, In e (d_set s) -> empty (d_box e) = true).
Proof.
  intros R.
  pose proof (reachable_uniform_elements s R) as Hu.
  pose proof (reachable_sum_ok s (reachable_uniform_matches s R)) as Hok.
  assert (Hc : (computeLoad_set s == load_sum (map d_box (d_set s)))%Q).
  { rewrite computeLoad_set_total. exact (total_load_uniform _ Hu). }
  split; [exact Hc|].
  assert (Hg : (TS.getSumLoad s == load_sum (map d_box (d_set s)))%Q).
  { unfold sum_ok in Hok. rewrite Hok. exact Hc. }
  split; [exact Hg|]. rewrite Hg. clear.
  induction (d_set s) as [|e l IH]; simpl.
  - split; [intros _ e [] | reflexivity].
  - assert (H0 : (0 <= computeLoad (d_box e))%Q).
    { unfold computeLoad. rewrite <- (Zle_Qle 0), size_cell_count.
      unfold cell_count. lia. }
    assert (Hl : (0 <= load_sum (map d_box l))%Q).
    { clear. induction l as [|z l IHl]; simpl; [discriminate|].
      assert (Hz : (0 <= computeLoad (d_box z))%Q).
      { unfold computeLoad. rewrite <- (Zle_Qle 0), size_cell_count.
        unfold cell_count. lia. }
      lra. }
    assert (He : (computeLoad (d_box e) == 0)%Q <-> empty (d_box e) = true).
    { unfold computeLoad. change 0%Q with (inject_Z 0).
      rewrite inject_Z_injective. unfold size, empty.
      destruct (existsb (fun lh => snd lh <? fst lh) (axes (d_box e))) eqn:E.
      - split; reflexivity.
      - pose proof (volume_pos _ E). split; [lia | discriminate]. }
    split.
    + intros H z [<- | Hz].
      * apply He. lra.
      * apply (proj1 IH); [lra | exact Hz].
    + intros H.
      assert (H1 : (computeLoad (d_box e) == 0)%Q).
      { apply He. apply H. left. reflexivity. }
      assert (H2 : (load_sum (map d_box l) == 0)%Q).
      { apply IH. intros z Hz. apply H. right. exact Hz. }
      lra.
Qed.

Lemma TransitSet_load_is_cell_count_witness :
  reachable uniform_load any_key set_u
  /\ (computeLoad_set set_u == load_sum (map d_box (d_set set_u)))%Q
  /\ (TS.getSumLoad set_u == load_sum (map d_box (d_set set_u)))%Q.
Proof.
  assert (R : reachable uniform_load any_key set_u).
  { unfold set_u.
    apply reach_insert; [apply reach_insert; [apply reach_new|]|]; reflexivity. }
  pose proof (TransitSet_load_is_cell_count set_u R) as H.
  split; [exact R|]. split; [exact (proj1 H) | exact (proj1 (proj2 H))].
Defined.
